(** * The edit/history/drawing pipeline of [labProject.py]

    A shallow embedding of the controller class [ImageProcessingApp]:
    the object's fields become a record, numpy arrays live in a store of
    references (so that [.copy()] and the in-place [cv2.line] keep their
    meaning), methods are computations in a state-and-exception monad, and
    the OpenCV entry points the methods call are the fields of an interface
    record [Cv2]. What the user or a device supplies (a chosen file, a
    decoded image, a camera frame, a pointer position) is an argument of
    the method it reaches. Widget construction, styling and the theme
    switch touch none of the fields below and are left out. *)

From Stdlib Require Import ZArith Lia.
From stdpp Require Import base list option strings.

Local Open Scope Z_scope.

(** ** Arrays *)

(** A numpy [uint8] array as the program sees it: a shape with at least two
    dimensions ([shape[0]] rows, [shape[1]] columns, and the channel
    dimension when the array is three-dimensional) over a flat buffer of
    bytes in row-major, channel-interleaved order. *)
Record ndarray := mk_ndarray {
  shape0 : Z;
  shape1 : Z;
  shape_rest : list Z;
  data : list Z
}.

Definition shape (a : ndarray) : list Z := shape0 a :: shape1 a :: shape_rest a.

Global Instance ndarray_eq_dec : EqDecision ndarray.
Proof. solve_decision. Defined.

(** ** Results and exceptions *)

Inductive result (A : Type) : Type :=
  | Ok (a : A)
  | Raise (e : string).
Arguments Ok {A} a.
Arguments Raise {A} e.

(** ** Python lists *)

Module Py.

(** [l[:k]]: a negative bound counts from the end and is clamped at 0. *)
Definition slice_to {A} (l : list A) (k : Z) : list A :=
  if 0 <=? k then take (Z.to_nat k) l
  else take (Z.to_nat (Z.max 0 (Z.of_nat (length l) + k))) l.

(** [l[i]]: a negative index counts from the end, anything outside
    [-len, len) raises [IndexError]. *)
Definition index {A} (l : list A) (i : Z) : result A :=
  let j := if i <? 0 then Z.of_nat (length l) + i else i in
  if j <? 0 then Raise "IndexError: list index out of range"
  else match l !! Z.to_nat j with
       | Some x => Ok x
       | None => Raise "IndexError: list index out of range"
       end.

(** [int(a * b / c)]: true division followed by truncation towards zero.
    The operands are pixel coordinates and image dimensions, so [a * b]
    stays far below 2^53 and the double-precision quotient truncates to
    the same integer as the exact one. *)
Definition int_div (n d : Z) : Z := Z.quot n d.

(** [a % b] on integers, for a positive [b]. *)
Definition mod_ (a b : Z) : Z := a mod b.

End Py.

(** ** The OpenCV entry points used by the application *)

Inductive ColorConversionCode :=
  | COLOR_BGR2GRAY | COLOR_GRAY2BGR | COLOR_BGR2HSV | COLOR_HSV2BGR
  | COLOR_BGR2RGB.

(** Every call either returns a freshly allocated array or raises;
    [line] alone draws into the array it is given, so its result is the new
    content of that same array. *)
Record Cv2 := mk_Cv2 {
  cvtColor : ndarray → ColorConversionCode → result ndarray;
  GaussianBlur : ndarray → Z * Z → Z → result ndarray;
  Canny : ndarray → Z → Z → result ndarray;
  filter2D : ndarray → Z → list (list Z) → result ndarray;
  convertScaleAbs : ndarray → Z → Z → result ndarray;
  line : ndarray → Z * Z → Z * Z → Z * Z * Z → Z → result ndarray
}.

(** ** Qt geometry *)

Module Qt.

Record QRect := mk_QRect { rx : Z; ry : Z; rwidth : Z; rheight : Z }.

(** [QRect.contains(p)]: edges included, the right and bottom edges being
    [x + width - 1] and [y + height - 1]. *)
Definition contains (r : QRect) (p : Z * Z) : bool :=
  (rx r <=? p.1) && (p.1 <=? rx r + rwidth r - 1) &&
  (ry r <=? p.2) && (p.2 <=? ry r + rheight r - 1).

(** [QSize.scaled(target, Qt.KeepAspectRatio)] for a source of size
    [(w, h)]: the largest size of the same aspect ratio that fits. *)
Definition scaled_keep_aspect (src target : Z * Z) : Z * Z :=
  let '(w, h) := src in
  let '(tw, th) := target in
  if (w =? 0) || (h =? 0) then target
  else
    let rw := Z.quot (th * w) h in
    if rw <=? tw then (rw, th) else (tw, Z.quot (tw * h) w).

(** [QStyle.alignedRect] with [Qt.AlignCenter]: where a pixmap of size
    [pm] is painted inside a label of size [lbl] (style-sheet margins
    left aside). *)
Definition centered_rect (lbl pm : Z * Z) : QRect :=
  mk_QRect (Z.quot lbl.1 2 - Z.quot pm.1 2) (Z.quot lbl.2 2 - Z.quot pm.2 2)
           pm.1 pm.2.

End Qt.

(** ** The application object *)

Definition ref := nat.

Inductive dialog :=
  | Warning (title text : string)
  | Critical (title text : string)
  | Information (title text : string).

Record ImageProcessingApp := mk_app {
  heap : list ndarray;                  (* the arrays allocated so far *)
  original_image : option ref;
  processed_image : option ref;
  image_history : list ref;
  current_history_index : Z;
  is_live_preview : bool;
  cap : option bool;                    (* the capture object and whether it is open *)
  timer : option bool;                  (* the timer attribute and whether it runs *)
  is_drawing : bool;
  last_point : option (Z * Z);
  blur_slider : Z;
  brightness_slider : Z;
  label_size : Z * Z;                   (* image_label.size() *)
  pixmap : option (Z * Z);              (* size of image_label.pixmap() *)
  dialogs : list dialog                 (* message boxes shown, oldest first *)
}.

Definition drawing_color : Z * Z * Z := (0, 255, 0).
Definition drawing_thickness : Z := 2.

Section Setters.
Variable s : ImageProcessingApp.

Definition set_heap v :=
  mk_app v (original_image s) (processed_image s) (image_history s)
    (current_history_index s) (is_live_preview s) (cap s) (timer s)
    (is_drawing s) (last_point s) (blur_slider s) (brightness_slider s)
    (label_size s) (pixmap s) (dialogs s).
Definition set_original_image v :=
  mk_app (heap s) v (processed_image s) (image_history s)
    (current_history_index s) (is_live_preview s) (cap s) (timer s)
    (is_drawing s) (last_point s) (blur_slider s) (brightness_slider s)
    (label_size s) (pixmap s) (dialogs s).
Definition set_processed_image v :=
  mk_app (heap s) (original_image s) v (image_history s)
    (current_history_index s) (is_live_preview s) (cap s) (timer s)
    (is_drawing s) (last_point s) (blur_slider s) (brightness_slider s)
    (label_size s) (pixmap s) (dialogs s).
Definition set_image_history v :=
  mk_app (heap s) (original_image s) (processed_image s) v
    (current_history_index s) (is_live_preview s) (cap s) (timer s)
    (is_drawing s) (last_point s) (blur_slider s) (brightness_slider s)
    (label_size s) (pixmap s) (dialogs s).
Definition set_current_history_index v :=
  mk_app (heap s) (original_image s) (processed_image s) (image_history s)
    v (is_live_preview s) (cap s) (timer s)
    (is_drawing s) (last_point s) (blur_slider s) (brightness_slider s)
    (label_size s) (pixmap s) (dialogs s).
Definition set_is_live_preview v :=
  mk_app (heap s) (original_image s) (processed_image s) (image_history s)
    (current_history_index s) v (cap s) (timer s)
    (is_drawing s) (last_point s) (blur_slider s) (brightness_slider s)
    (label_size s) (pixmap s) (dialogs s).
Definition set_cap v :=
  mk_app (heap s) (original_image s) (processed_image s) (image_history s)
    (current_history_index s) (is_live_preview s) v (timer s)
    (is_drawing s) (last_point s) (blur_slider s) (brightness_slider s)
    (label_size s) (pixmap s) (dialogs s).
Definition set_timer v :=
  mk_app (heap s) (original_image s) (processed_image s) (image_history s)
    (current_history_index s) (is_live_preview s) (cap s) v
    (is_drawing s) (last_point s) (blur_slider s) (brightness_slider s)
    (label_size s) (pixmap s) (dialogs s).
Definition set_is_drawing v :=
  mk_app (heap s) (original_image s) (processed_image s) (image_history s)
    (current_history_index s) (is_live_preview s) (cap s) (timer s)
    v (last_point s) (blur_slider s) (brightness_slider s)
    (label_size s) (pixmap s) (dialogs s).
Definition set_last_point v :=
  mk_app (heap s) (original_image s) (processed_image s) (image_history s)
    (current_history_index s) (is_live_preview s) (cap s) (timer s)
    (is_drawing s) v (blur_slider s) (brightness_slider s)
    (label_size s) (pixmap s) (dialogs s).
Definition set_blur_slider v :=
  mk_app (heap s) (original_image s) (processed_image s) (image_history s)
    (current_history_index s) (is_live_preview s) (cap s) (timer s)
    (is_drawing s) (last_point s) v (brightness_slider s)
    (label_size s) (pixmap s) (dialogs s).
Definition set_brightness_slider v :=
  mk_app (heap s) (original_image s) (processed_image s) (image_history s)
    (current_history_index s) (is_live_preview s) (cap s) (timer s)
    (is_drawing s) (last_point s) (blur_slider s) v
    (label_size s) (pixmap s) (dialogs s).
Definition set_label_size v :=
  mk_app (heap s) (original_image s) (processed_image s) (image_history s)
    (current_history_index s) (is_live_preview s) (cap s) (timer s)
    (is_drawing s) (last_point s) (blur_slider s) (brightness_slider s)
    v (pixmap s) (dialogs s).
Definition set_pixmap v :=
  mk_app (heap s) (original_image s) (processed_image s) (image_history s)
    (current_history_index s) (is_live_preview s) (cap s) (timer s)
    (is_drawing s) (last_point s) (blur_slider s) (brightness_slider s)
    (label_size s) v (dialogs s).
Definition set_dialogs v :=
  mk_app (heap s) (original_image s) (processed_image s) (image_history s)
    (current_history_index s) (is_live_preview s) (cap s) (timer s)
    (is_drawing s) (last_point s) (blur_slider s) (brightness_slider s)
    (label_size s) (pixmap s) v.
End Setters.

(** ** The method monad: state that survives an exception *)

Definition M (A : Type) : Type := ImageProcessingApp → result A * ImageProcessingApp.

Definition ret {A} (a : A) : M A := λ s, (Ok a, s).
Definition raise {A} (e : string) : M A := λ s, (Raise e, s).
Definition bind {A B} (m : M A) (k : A → M B) : M B :=
  λ s, match m s with
       | (Ok a, s') => k a s'
       | (Raise e, s') => (Raise e, s')
       end.
Definition try_except {A} (body : M A) (handler : string → M A) : M A :=
  λ s, match body s with
       | (Ok a, s') => (Ok a, s')
       | (Raise e, s') => handler e s'
       end.
Definition gets {A} (f : ImageProcessingApp → A) : M A := λ s, (Ok (f s), s).
Definition modify (f : ImageProcessingApp → ImageProcessingApp) : M unit :=
  λ s, (Ok tt, f s).
Definition lift {A} (r : result A) : M A := λ s, (r, s).

Notation "'do' x <- m ; k" := (bind m (λ x, k))
  (at level 10, x name, m at level 99, k at level 200,
   format "'[v' 'do'  x  <-  m ; '/' k ']'").
Notation "m1 >> m2" := (bind m1 (λ _, m2))
  (at level 100, m2 at level 200, right associativity).

(** The state a method leaves behind, whether it returned or raised. *)
Definition exec {A} (m : M A) (s : ImageProcessingApp) : ImageProcessingApp := (m s).2.

(** ** The array store *)

(** A new array object, as returned by a library call or by [.copy()]. *)
Definition alloc (a : ndarray) : M ref :=
  λ s, (Ok (length (heap s)), set_heap s (heap s ++ [a])).

(** Reading the array behind a reference. Every reference the object holds
    was returned by [alloc], so the error branch, which exists because the
    store is a list, is not taken from a state the program can reach. *)
Definition deref (r : ref) : M ndarray :=
  λ s, match heap s !! r with
       | Some a => (Ok a, s)
       | None => (Raise "dangling reference", s)
       end.

(** In-place update of the array behind a reference. *)
Definition store (r : ref) (a : ndarray) : M unit :=
  modify (λ s, set_heap s (<[r := a]> (heap s))).

(** [arr.copy()] *)
Definition copy (r : ref) : M ref :=
  do a <- deref r; alloc a.

(** The array a field points to, if any. *)
Definition value_of (s : ImageProcessingApp) (o : option ref) : option ndarray :=
  r ← o; heap s !! r.

Definition show (d : dialog) : M unit :=
  modify (λ s, set_dialogs s (dialogs s ++ [d])).

(** ** Methods of [ImageProcessingApp] *)

(** [__init__]: the fields as the constructor leaves them, for a label of
    the given size. The blur slider starts at 5, the brightness slider at
    0, and no [timer] attribute exists yet. *)
Definition init (lbl : Z * Z) : ImageProcessingApp :=
  mk_app [] None None [] (-1) false None None false None 5 0 lbl None [].

Definition add_to_history : M unit :=
  do p <- gets processed_image;
  match p with
  | Some r =>
      modify (λ s, set_image_history s
                     (Py.slice_to (image_history s) (current_history_index s + 1))) >>
      do c <- copy r;
      modify (λ s, set_image_history s (image_history s ++ [c])) >>
      modify (λ s, set_current_history_index s
                     (Z.of_nat (length (image_history s)) - 1))
  | None => ret tt
  end.

(** [self.processed_image = self.image_history[self.current_history_index].copy()] *)
Definition load_current_entry : M unit :=
  do h <- gets image_history;
  do i <- gets current_history_index;
  do r <- lift (Py.index h i);
  do c <- copy r;
  modify (λ s, set_processed_image s (Some c)).

(** ** Filters *)

(** Lines 279-284: the kernel size handed to [cv2.GaussianBlur] for a
    slider value. *)
Definition blur_kernel_size (slider_value : Z) : Z :=
  let kernel_size := slider_value in
  let kernel_size := if kernel_size <? 1 then 1 else kernel_size in
  if Py.mod_ kernel_size 2 =? 0 then kernel_size + 1 else kernel_size.

Definition sharpen_kernel : list (list Z) :=
  [[-1; -1; -1]; [-1; 9; -1]; [-1; -1; -1]].

(** One hue byte through [(h + 30) % 180]: the sum is taken in [uint8], so
    it wraps at 256 before the remainder. *)
Definition hue_shift_byte (h : Z) : Z := Py.mod_ ((h + 30) mod 256) 180.

(** [hsv[:,:,0] = (hsv[:,:,0] + 30) % 180]: every byte of channel 0 of a
    three-dimensional array; the index expression raises on an array that
    has no third dimension. *)
Definition hue_shift (hsv : ndarray) : result ndarray :=
  match shape_rest hsv with
  | [channels] =>
      Ok (mk_ndarray (shape0 hsv) (shape1 hsv) [channels]
            (imap (λ i x, if Z.of_nat i mod channels =? 0
                          then hue_shift_byte x else x) (data hsv)))
  | _ => Raise "IndexError: too many indices for array"
  end.

Section Methods.

Variable cv2 : Cv2.

(** The array [self.processed_image] evaluates to when it is passed to a
    library call (which rejects [None]). *)
Definition the_processed_image : M ndarray :=
  do p <- gets processed_image;
  match p with
  | Some r => deref r
  | None => raise "cv2.error: src is not a numpy array"
  end.

(** [self.processed_image = <new array>] *)
Definition assign_processed_image (a : ndarray) : M unit :=
  do r <- alloc a;
  modify (λ s, set_processed_image s (Some r)).

(** ** Display, undo, redo and reset *)

(** Lines 316-319: the array handed to [QImage]. A three-channel array is
    converted from BGR to RGB, anything else is used as it is. *)
Definition display_array (img : ndarray) : result ndarray :=
  match shape_rest img with
  | [channels] =>
      if channels =? 3 then cvtColor cv2 img COLOR_BGR2RGB else Ok img
  | _ => Ok img
  end.

(** The pixmap is kept by its size only: the converted image scaled into
    the label with [Qt.KeepAspectRatio]. *)
Definition update_image_display : M unit :=
  do p <- gets processed_image;
  match p with
  | Some r =>
      do img <- deref r;
      do img <- lift (display_array img);
      let height := shape0 img in
      let width := shape1 img in
      modify (λ s, set_pixmap s
                     (Some (Qt.scaled_keep_aspect (width, height) (label_size s))))
  | None => ret tt
  end.

Definition undo : M unit :=
  do i <- gets current_history_index;
  if 0 <? i then
    modify (λ s, set_current_history_index s (current_history_index s - 1)) >>
    load_current_entry >>
    update_image_display
  else ret tt.

Definition redo : M unit :=
  do i <- gets current_history_index;
  do h <- gets image_history;
  if i <? Z.of_nat (length h) - 1 then
    modify (λ s, set_current_history_index s (current_history_index s + 1)) >>
    load_current_entry >>
    update_image_display
  else ret tt.

Definition reset_image : M unit :=
  do o <- gets original_image;
  match o with
  | Some r =>
      do c <- copy r;
      modify (λ s, set_processed_image s (Some c)) >>
      update_image_display >>
      add_to_history
  | None => show (Warning "Warning" "No image to reset!")
  end.

Definition clear_drawing : M unit :=
  do o <- gets original_image;
  match o with
  | Some r =>
      do c <- copy r;
      modify (λ s, set_processed_image s (Some c)) >>
      update_image_display >>
      add_to_history
  | None => ret tt
  end.

(** The [if]/[elif] chain of [apply_filter] (lines 275-299). A name that
    matches no branch changes nothing. *)
Definition filter_transform (filter_name : string) : M unit :=
  if String.eqb filter_name "Grayscale" then
    do img <- the_processed_image;
    do gray <- lift (cvtColor cv2 img COLOR_BGR2GRAY);
    assign_processed_image gray >>
    do img <- the_processed_image;
    do bgr <- lift (cvtColor cv2 img COLOR_GRAY2BGR);
    assign_processed_image bgr
  else if String.eqb filter_name "Gaussian Blur" then
    do v <- gets blur_slider;
    let kernel_size := blur_kernel_size v in
    do img <- the_processed_image;
    do blurred <- lift (GaussianBlur cv2 img (kernel_size, kernel_size) 0);
    assign_processed_image blurred
  else if String.eqb filter_name "Edge Detection" then
    do img <- the_processed_image;
    do gray <- lift (cvtColor cv2 img COLOR_BGR2GRAY);
    do edges <- lift (Canny cv2 gray 100 200);
    do bgr <- lift (cvtColor cv2 edges COLOR_GRAY2BGR);
    assign_processed_image bgr
  else if String.eqb filter_name "Sharpen" then
    do img <- the_processed_image;
    do sharp <- lift (filter2D cv2 img (-1) sharpen_kernel);
    assign_processed_image sharp
  else if String.eqb filter_name "Brightness/Contrast" then
    do brightness <- gets brightness_slider;
    do img <- the_processed_image;
    do out <- lift (convertScaleAbs cv2 img 1 brightness);
    assign_processed_image out
  else if String.eqb filter_name "Hue Adjustment" then
    do img <- the_processed_image;
    do hsv <- lift (cvtColor cv2 img COLOR_BGR2HSV);
    do hsv <- lift (hue_shift hsv);
    do bgr <- lift (cvtColor cv2 hsv COLOR_HSV2BGR);
    assign_processed_image bgr
  else ret tt.

Definition apply_filter (filter_name : string) : M unit :=
  do p <- gets processed_image;
  match p with
  | None => show (Warning "Warning" "Please open an image first!")
  | Some _ =>
      try_except
        (filter_transform filter_name >>
         update_image_display >>
         add_to_history)
        (λ e, show (Critical "Error" ("Failed to apply filter: " +:+ e)))
  end.

(** ** Loading and live capture *)

(** The body shared by [open_image] and [dropEvent]:
    [file_name] is the chosen path and [loaded] what [cv2.imread]
    returned for it ([None] when the file could not be decoded). *)
Definition load_image (loaded : option ndarray) : M unit :=
  match loaded with
  | Some a =>
      do r <- alloc a;
      modify (λ s, set_original_image s (Some r)) >>
      do c <- copy r;
      modify (λ s, set_processed_image s (Some c)) >>
      update_image_display >>
      add_to_history
  | None =>
      modify (λ s, set_original_image s None) >>
      raise "Failed to load image"
  end.

Definition open_image (file_name : string) (loaded : option ndarray) : M unit :=
  try_except
    (if String.eqb file_name "" then ret tt else load_image loaded)
    (λ e, show (Critical "Error" ("Failed to open image: " +:+ e))).

Definition dropEvent (files : list string) (loaded : option ndarray) : M unit :=
  try_except
    (match files with
     | [] => ret tt
     | _ :: _ => load_image loaded
     end)
    (λ e, show (Critical "Error" ("Failed to load dropped image: " +:+ e))).

(** [file_name] is the path chosen in the dialog and [success] what
    [cv2.imwrite] answered. *)
Definition save_image (file_name : string) (success : bool) : M unit :=
  try_except
    (do p <- gets processed_image;
     match p with
     | Some _ =>
         if String.eqb file_name "" then ret tt
         else if success
              then show (Information "Success" "Image saved successfully!")
              else raise "Failed to save image"
     | None => ret tt
     end)
    (λ e, show (Critical "Error" ("Failed to save image: " +:+ e))).

Definition stop_live_preview : M unit :=
  modify (λ s, set_is_live_preview s false) >>
  do c <- gets cap;
  match c with
  | Some _ => modify (λ s, set_cap s (Some false))
  | None => ret tt
  end >>
  do t <- gets timer;
  match t with
  | Some _ => modify (λ s, set_timer s (Some false))
  | None => ret tt
  end.

(** [opened] is what [cap.isOpened()] answers for device 0. *)
Definition start_live_preview (opened : bool) : M unit :=
  try_except
    (modify (λ s, set_is_live_preview s true) >>
     modify (λ s, set_cap s (Some opened)) >>
     if opened then modify (λ s, set_timer s (Some true))
     else raise "Failed to open camera")
    (λ e, show (Critical "Error" ("Failed to start live preview: " +:+ e)) >>
          stop_live_preview).

(** One timer tick; [frame] is what [cap.read()] delivered, [None] when
    it reported failure. *)
Definition update_live_preview (frame : option ndarray) : M unit :=
  do live <- gets is_live_preview;
  do c <- gets cap;
  match live, c, frame with
  | true, Some _, Some a =>
      assign_processed_image a >>
      update_image_display
  | _, _, _ => ret tt
  end.

Definition resizeEvent (new_label_size : Z * Z) : M unit :=
  modify (λ s, set_label_size s new_label_size) >>
  update_image_display.

(** ** Drawing *)

Definition mouse_press_event (pos : Z * Z) : M unit :=
  do p <- gets processed_image;
  match p with
  | Some _ =>
      modify (λ s, set_is_drawing s true) >>
      modify (λ s, set_last_point s (Some pos))
  | None => ret tt
  end.

(** [image_label.rect()] is the label's own rectangle, anchored at the
    origin. *)
Definition get_image_rect : M (option Qt.QRect) :=
  do p <- gets processed_image;
  match p with
  | None => ret None
  | Some _ =>
      do pm <- gets pixmap;
      match pm with
      | None => ret None
      | Some _ =>
          do lbl <- gets label_size;
          ret (Some (Qt.mk_QRect 0 0 lbl.1 lbl.2))
      end
  end.

(** Lines 385-388: one coordinate of a label point taken to image pixels. *)
Definition to_image_coordinate (point_c rect_c image_dim rect_dim : Z) : Z :=
  Py.int_div ((point_c - rect_c) * image_dim) rect_dim.

(** The two end points handed to [cv2.line] for a move from [last] to
    [current] over an image of the given shape. *)
Definition segment_endpoints (img_rect : Qt.QRect) (img : ndarray)
    (last current : Z * Z) : (Z * Z) * (Z * Z) :=
  let start_x := to_image_coordinate last.1 (Qt.rx img_rect) (shape1 img) (Qt.rwidth img_rect) in
  let start_y := to_image_coordinate last.2 (Qt.ry img_rect) (shape0 img) (Qt.rheight img_rect) in
  let end_x := to_image_coordinate current.1 (Qt.rx img_rect) (shape1 img) (Qt.rwidth img_rect) in
  let end_y := to_image_coordinate current.2 (Qt.ry img_rect) (shape0 img) (Qt.rheight img_rect) in
  ((start_x, start_y), (end_x, end_y)).

Definition mouse_move_event (current_point : Z * Z) : M unit :=
  do drawing <- gets is_drawing;
  do p <- gets processed_image;
  match drawing, p with
  | true, Some r =>
      do lp <- gets last_point;
      match lp with
      | Some last =>
          do rect <- get_image_rect;
          match rect with
          | None => raise "AttributeError: 'NoneType' object has no attribute 'contains'"
          | Some img_rect =>
              if Qt.contains img_rect current_point then
                do img <- deref r;
                let '(start, stop) := segment_endpoints img_rect img last current_point in
                do drawn <- lift (line cv2 img start stop drawing_color drawing_thickness);
                store r drawn >>
                update_image_display
              else ret tt
          end
      | None => ret tt
      end >>
      modify (λ s, set_last_point s (Some current_point))
  | _, _ => ret tt
  end.

Definition mouse_release_event : M unit :=
  modify (λ s, set_is_drawing s false) >>
  modify (λ s, set_last_point s None) >>
  do p <- gets processed_image;
  match p with
  | Some _ => add_to_history
  | None => ret tt
  end.

(** ** Sliders *)

(** [QSlider.setValue] bounds the value by the slider's range and emits
    [valueChanged] only when the value changes; the connected slot runs
    the filter. *)
Definition clamp (lo hi v : Z) : Z := Z.max lo (Z.min hi v).

Definition blur_slider_moved (v : Z) : M unit :=
  do old <- gets blur_slider;
  let v' := clamp 1 15 v in
  if v' =? old then ret tt
  else modify (λ s, set_blur_slider s v') >> apply_filter "Gaussian Blur".

Definition brightness_slider_moved (v : Z) : M unit :=
  do old <- gets brightness_slider;
  let v' := clamp (-100) 100 v in
  if v' =? old then ret tt
  else modify (λ s, set_brightness_slider s v') >> apply_filter "Brightness/Contrast".

(** ** The event loop *)

Inductive event :=
  | EvOpen (file_name : string) (loaded : option ndarray)
  | EvDrop (files : list string) (loaded : option ndarray)
  | EvFilter (filter_name : string)
  | EvBlurSlider (v : Z)
  | EvBrightnessSlider (v : Z)
  | EvReset
  | EvClearDrawing
  | EvUndo
  | EvRedo
  | EvStartLive (opened : bool)
  | EvStopLive
  | EvTick (frame : option ndarray)
  | EvResize (new_label_size : Z * Z)
  | EvMousePress (pos : Z * Z)
  | EvMouseMove (pos : Z * Z)
  | EvMouseRelease
  | EvSave (file_name : string) (success : bool).

Definition handle (e : event) : M unit :=
  match e with
  | EvOpen f l => open_image f l
  | EvDrop fs l => dropEvent fs l
  | EvFilter f => apply_filter f
  | EvBlurSlider v => blur_slider_moved v
  | EvBrightnessSlider v => brightness_slider_moved v
  | EvReset => reset_image
  | EvClearDrawing => clear_drawing
  | EvUndo => undo
  | EvRedo => redo
  | EvStartLive o => start_live_preview o
  | EvStopLive => stop_live_preview
  | EvTick f => update_live_preview f
  | EvResize sz => resizeEvent sz
  | EvMousePress p => mouse_press_event p
  | EvMouseMove p => mouse_move_event p
  | EvMouseRelease => mouse_release_event
  | EvSave f ok => save_image f ok
  end.

(** The object after a sequence of events; an exception that escapes a
    handler leaves the fields as they were when it was raised. *)
Definition run (es : list event) (s : ImageProcessingApp) : ImageProcessingApp :=
  foldl (λ s e, exec (handle e) s) s es.

End Methods.

(** * Vocabulary of the properties *)

(** ** Sample data and stand-ins for the library *)

Definition sample_image : ndarray := mk_ndarray 1 2 [3] [10; 20; 30; 40; 50; 60].
Definition sample_image' : ndarray := mk_ndarray 1 2 [3] [1; 2; 3; 4; 5; 6].

Definition square_image : ndarray := mk_ndarray 30 30 [3] (replicate 2700 0).

(** A stand-in for the library in which every call succeeds and hands back
    the array it was given; used to run the methods on concrete states. *)
Definition echo_cv2 : Cv2 :=
  mk_Cv2 (λ a _, Ok a) (λ a _ _, Ok a) (λ a _ _, Ok a) (λ a _ _, Ok a)
         (λ a _ _, Ok a) (λ a _ _ _ _, Ok a).

Fixpoint luminance (bytes : list Z) : list Z :=
  match bytes with
  | b :: g :: r :: rest => (114 * b + 587 * g + 299 * r + 500) / 1000 :: luminance rest
  | _ => []
  end.

(** A library whose colour-to-gray conversion works and whose
    gray-to-colour conversion cannot allocate its result. *)
Definition gray2bgr_failing_cv2 : Cv2 :=
  mk_Cv2
    (λ a code,
       match code with
       | COLOR_BGR2GRAY =>
           Ok (mk_ndarray (shape0 a) (shape1 a) [] (luminance (data a)))
       | COLOR_GRAY2BGR => Raise "cv2.error: Insufficient memory"
       | _ => Ok a
       end)
    (λ a _ _, Ok a) (λ a _ _, Ok a) (λ a _ _, Ok a)
    (λ a _ _, Ok a) (λ a _ _ _ _, Ok a).

(** A library whose [line] writes the end points it was given into the
    buffer, to observe the call. *)
Definition tracing_cv2 : Cv2 :=
  mk_Cv2 (λ a _, Ok a) (λ a _ _, Ok a) (λ a _ _, Ok a) (λ a _ _, Ok a)
         (λ a _ _, Ok a)
         (λ a p q _ _,
            Ok (mk_ndarray (shape0 a) (shape1 a) (shape_rest a) [p.1; p.2; q.1; q.2])).

(** A state with two snapshots, the first one current, and a processed
    image that differs from both. *)
Definition undone_state : ImageProcessingApp :=
  mk_app [sample_image; sample_image'; sample_image; sample_image']
    (Some 0%nat) (Some 3%nat) [1%nat; 2%nat] 0
    false None None false None 5 0 (1200, 900) (Some (1200, 600)) [].

(** The object after [sample_image] has been opened. *)
Definition opened_state : ImageProcessingApp :=
  exec (open_image echo_cv2 "photo.png" (Some sample_image)) (init (1200, 900)).

(** A 30x30 image opened in a 1200x900 label, and the button pressed at the
    top-left corner of the displayed image. *)
Definition stroke_state : ImageProcessingApp :=
  exec (mouse_press_event (150, 0))
    (exec (open_image tracing_cv2 "photo.png" (Some square_image)) (init (1200, 900))).

(** ** The library's 8-bit colour conversions *)

(** A transcription of the conversions [cv2.cvtColor] performs on 8-bit
    images for the codes the hue filter and the display use. BGR to HSV is
    the library's fixed-point code (12 fractional bits, division tables);
    HSV to BGR is computed by the library in single precision and rounded to
    the nearest byte, which is written here with exact fractions: the two
    agree wherever the exact value is not within rounding error of a
    half. *)
Module OpenCV8u.

(** The nearest integer to [n / d] for a positive [d], ties to even. *)
Definition round_div (n d : Z) : Z :=
  let q := n / d in
  let r2 := 2 * (n mod d) in
  if r2 <? d then q
  else if d <? r2 then q + 1
  else if Z.even q then q else q + 1.

Definition sdiv_table (i : Z) : Z :=
  if i =? 0 then 0 else round_div (255 * 4096) i.

Definition hdiv_table180 (i : Z) : Z :=
  if i =? 0 then 0 else round_div (180 * 4096) (6 * i).

Definition saturate_uchar (x : Z) : Z := Z.max 0 (Z.min 255 x).

Definition bgr2hsv_pixel (b g r : Z) : Z * Z * Z :=
  let v := Z.max b (Z.max g r) in
  let vmin := Z.min b (Z.min g r) in
  let diff := v - vmin in
  let s := Z.shiftr (diff * sdiv_table v + 2048) 12 in
  let h := if v =? r then g - b
           else if v =? g then b - r + 2 * diff
           else r - g + 4 * diff in
  let h := Z.shiftr (h * hdiv_table180 diff + 2048) 12 in
  let h := if h <? 0 then h + 180 else h in
  (saturate_uchar h, s, v).

(** The result is in the order blue, green, red. Hue is in units of two
    degrees, so a sector of sixty degrees is thirty units. *)
Definition hsv2bgr_pixel (h s v : Z) : Z * Z * Z :=
  if s =? 0 then (v, v, v)
  else
    let sector := (h / 30) mod 6 in
    let f := h mod 30 in
    let tab0 := v in
    let tab1 := round_div (v * (255 - s)) 255 in
    let tab2 := round_div (v * (255 * 30 - s * f)) (255 * 30) in
    let tab3 := round_div (v * (255 * 30 - s * (30 - f))) (255 * 30) in
    if sector =? 0 then (tab1, tab3, tab0)
    else if sector =? 1 then (tab1, tab0, tab2)
    else if sector =? 2 then (tab3, tab0, tab1)
    else if sector =? 3 then (tab0, tab2, tab1)
    else if sector =? 4 then (tab0, tab1, tab3)
    else (tab2, tab1, tab0).

Fixpoint map_pixels (f : Z → Z → Z → Z * Z * Z) (bytes : list Z) : list Z :=
  match bytes with
  | x :: y :: z :: rest =>
      let '(x', y', z') := f x y z in x' :: y' :: z' :: map_pixels f rest
  | _ => []
  end.

Definition convert (f : Z → Z → Z → Z * Z * Z) (a : ndarray) : result ndarray :=
  match shape_rest a with
  | [3] => Ok (mk_ndarray (shape0 a) (shape1 a) [3] (map_pixels f (data a)))
  | _ => Raise "cv2.error: Invalid number of channels in input image"
  end.

Definition cvtColor (a : ndarray) (code : ColorConversionCode) : result ndarray :=
  match code with
  | COLOR_BGR2HSV => convert bgr2hsv_pixel a
  | COLOR_HSV2BGR => convert hsv2bgr_pixel a
  | COLOR_BGR2RGB => convert (λ b g r, (r, g, b)) a
  | COLOR_BGR2GRAY | COLOR_GRAY2BGR => Raise "conversion not transcribed"
  end.

(** Only the colour conversions are transcribed; the other entry points,
    which the hue filter does not reach, raise. *)
Definition cv2 : Cv2 :=
  mk_Cv2 cvtColor
    (λ _ _ _, Raise "not transcribed") (λ _ _ _, Raise "not transcribed")
    (λ _ _ _, Raise "not transcribed") (λ _ _ _, Raise "not transcribed")
    (λ _ _ _ _ _, Raise "not transcribed").

End OpenCV8u.

(** ** Reading the hue channel *)

(** Channel 0 of a flat three-channel buffer. *)
Fixpoint channel0 (bytes : list Z) : list Z :=
  match bytes with
  | x :: _ :: _ :: rest => x :: channel0 rest
  | _ => []
  end.

(** The hue channel of the processed image, as [cv2.cvtColor] with
    [COLOR_BGR2HSV] reads it. *)
Definition hue_channel (cv2 : Cv2) (s : ImageProcessingApp) : option (list Z) :=
  match value_of s (processed_image s) with
  | Some img =>
      match cvtColor cv2 img COLOR_BGR2HSV with
      | Ok hsv => Some (channel0 (data hsv))
      | Raise _ => None
      end
  | None => None
  end.

(** The Hue Adjustment button pressed [n] times. *)
Definition hue_adjustments (n : nat) : list event :=
  replicate n (EvFilter "Hue Adjustment").

(** ** History contents *)

(** The contents of the history entries, in order. *)
Definition snapshots (s : ImageProcessingApp) : list (option ndarray) :=
  (λ r, heap s !! r) <$> image_history s.

(** One edit: the processed image becomes a new array, which is recorded. *)
Definition record (img : ndarray) : M unit :=
  assign_processed_image img >> add_to_history.

Definition record_all (imgs : list ndarray) (s : ImageProcessingApp) : ImageProcessingApp :=
  foldl (λ s img, exec (record img) s) s imgs.

(** Run [m] [n] times and collect what the processed image holds after
    each run. *)
Fixpoint visit (m : M unit) (n : nat) (s : ImageProcessingApp)
    : list (option ndarray) * ImageProcessingApp :=
  match n with
  | O => ([], s)
  | S n' =>
      let s' := exec m s in
      let '(seen, s'') := visit m n' s' in
      (value_of s' (processed_image s') :: seen, s'')
  end.

(** The history holds exactly [imgs] and entry [i] is current. *)
Definition holds (s : ImageProcessingApp) (imgs : list ndarray) (i : nat) : Prop :=
  snapshots s = Some <$> imgs ∧ current_history_index s = Z.of_nat i.

(** The state with the pixmap of [shown] on display. *)
Definition displayed (s : ImageProcessingApp) (shown : ndarray) : ImageProcessingApp :=
  set_pixmap s (Some (Qt.scaled_keep_aspect (shape1 shown, shape0 shown) (label_size s))).

(** What a display refresh of the array [a] leaves: the new pixmap when the
    conversion for display succeeds, the state as it was when it raises. *)
Definition after_display (cv2 : Cv2) (s : ImageProcessingApp) (a : ndarray)
    : ImageProcessingApp :=
  match display_array cv2 a with
  | Ok shown => displayed s shown
  | Raise _ => s
  end.

(** The state after history entry [i], whose content is [a], has been
    copied into the processed image. *)
Definition loaded_entry (s : ImageProcessingApp) (i : nat) (a : ndarray) : ImageProcessingApp :=
  set_processed_image
    (set_heap (set_current_history_index s (Z.of_nat i)) (heap s ++ [a]))
    (Some (length (heap s))).

(** The state after loading history entry [i] into the processed image and
    showing it as [shown]. *)
Definition shown_entry (s : ImageProcessingApp) (i : nat) (a shown : ndarray)
    : ImageProcessingApp :=
  displayed (loaded_entry s i a) shown.

(** The state after a copy of [img] has become the processed image. *)
Definition copied (s : ImageProcessingApp) (img : ndarray) : ImageProcessingApp :=
  set_processed_image (set_heap s (heap s ++ [img])) (Some (length (heap s))).

(** The state [reset_image] and [clear_drawing] reach when the original
    image holds [img] and is displayed as [shown]: a copy becomes the
    processed image, the display is refreshed and a second copy is
    recorded. *)
Definition restored (s : ImageProcessingApp) (img shown : ndarray) : ImageProcessingApp :=
  let c := length (heap s) in
  let h := Py.slice_to (image_history s) (current_history_index s + 1) ++ [S c] in
  set_current_history_index
    (set_image_history
       (set_pixmap
          (set_processed_image (set_heap s (heap s ++ [img; img])) (Some c))
          (Some (Qt.scaled_keep_aspect (shape1 shown, shape0 shown) (label_size s))))
       h)
    (Z.of_nat (length h) - 1).

(** An empty history has index -1; a non-empty one has its index on one of
    its entries. *)
Definition history_inv (s : ImageProcessingApp) : Prop :=
  (image_history s = [] → current_history_index s = -1) ∧
  (image_history s ≠ [] →
   0 ≤ current_history_index s ≤ Z.of_nat (length (image_history s)) - 1).

(** ** Properties kept by computations *)

(** A property of the object that a computation keeps, whether it returns
    or raises. *)
Definition preserves (P : ImageProcessingApp → Prop) {A} (m : M A) : Prop :=
  ∀ s, P s → P (exec m s).

(** Writes that leave the history and its index alone. *)
Definition history_neutral (f : ImageProcessingApp → ImageProcessingApp) : Prop :=
  ∀ s, image_history (f s) = image_history s ∧
       current_history_index (f s) = current_history_index s.

(** Every reference held by the object points into the store, and the
    array behind [processed_image] (the only one written in place) is
    neither the original nor a history entry. *)
Definition well_formed (s : ImageProcessingApp) : Prop :=
  match original_image s with
  | Some r => (r < length (heap s))%nat
  | None => True
  end ∧
  match processed_image s with
  | Some r =>
      (r < length (heap s))%nat ∧ original_image s ≠ Some r ∧
      Forall (λ r', r' ≠ r) (image_history s)
  | None => True
  end ∧
  Forall (λ r, (r < length (heap s))%nat) (image_history s).

(** Between [s] and [s'] every array keeps its content, except possibly the
    one that was the processed image in [s]. *)
Definition frame (s s' : ImageProcessingApp) : Prop :=
  ∀ r a, heap s !! r = Some a → processed_image s ≠ Some r → heap s' !! r = Some a.

Definition is_load (e : event) : bool :=
  match e with
  | EvOpen _ _ | EvDrop _ _ => true
  | _ => false
  end.

(** A handler that is not a load keeps the reference to the original. *)
Definition keeps_original (s s' : ImageProcessingApp) : Prop :=
  frame s s' ∧ original_image s' = original_image s.

(** ** Display geometry and hue bytes *)

(** The rectangle of the label that actually shows the image: the scaled
    pixmap, centred. This is the rectangle the mapping has to be taken
    against for a stroke to land under the pointer. *)
Definition displayed_rect (s : ImageProcessingApp) : option Qt.QRect :=
  pm ← pixmap s; Some (Qt.centered_rect (label_size s) pm).

Definition hue_bytes_map (f : Z → Z) (channels : Z) (bytes : list Z) : list Z :=
  imap (λ i x, if Z.of_nat i mod channels =? 0 then f x else x) bytes.

(** The hue assignment applied [n] times to one HSV array, with no colour
    conversion in between. *)
Definition hue_shift_n (n : nat) (hsv : ndarray) : result ndarray :=
  Nat.iter n (λ r, match r with Ok a => hue_shift a | Raise e => Raise e end) (Ok hsv).

(** ** Slider ranges, display and strokes *)

(** The ranges given to the two sliders by [setRange] (lines 193 and 217). *)
Definition slider_range (s : ImageProcessingApp) : Prop :=
  1 ≤ blur_slider s ≤ 15 ∧ -100 ≤ brightness_slider s ≤ 100.

(** One stroke: the button goes down at [p], the pointer passes through
    [pts], the button goes up. *)
Definition stroke (p : Z * Z) (pts : list (Z * Z)) : list event :=
  EvMousePress p :: (EvMouseMove <$> pts) ++ [EvMouseRelease].

(** A library whose conversion for display rejects a buffer that does not
    hold three bytes for every pixel, and whose [line], that of
    [tracing_cv2], leaves such a buffer. *)
Definition strict_display_cv2 : Cv2 :=
  mk_Cv2
    (λ a code,
       match code with
       | COLOR_BGR2RGB =>
           if Z.of_nat (length (data a)) =? shape0 a * shape1 a * 3 then Ok a
           else Raise "cv2.error: bad buffer"
       | _ => Ok a
       end)
    (λ a _ _, Ok a) (λ a _ _, Ok a) (λ a _ _, Ok a) (λ a _ _, Ok a)
    (line tracing_cv2).

(** A library whose [convertScaleAbs] computes the absolute value of
    [alpha * x + beta] on every byte, saturated at 255. *)
Definition offset_cv2 : Cv2 :=
  mk_Cv2 (λ a _, Ok a) (λ a _ _, Ok a) (λ a _ _, Ok a) (λ a _ _, Ok a)
         (λ a alpha beta,
            Ok (mk_ndarray (shape0 a) (shape1 a) (shape_rest a)
                  ((λ x, Z.min 255 (Z.abs (alpha * x + beta))) <$> data a)))
         (λ a _ _ _ _, Ok a).

(** The filter names offered by the toolbar (line 117). *)
Definition filters : list string :=
  ["Grayscale"; "Gaussian Blur"; "Edge Detection"; "Sharpen";
   "Brightness/Contrast"; "Hue Adjustment"].

(** ** Theme *)

(** The style sheet of the dark theme (lines 417-447). *)
Definition dark_style_sheet : string := "
                QMainWindow, QWidget {
                    background-color: #2b2b2b;
                    color: #ffffff;
                }
                QPushButton {
                    background-color: #3b3b3b;
                    color: #ffffff;
                    border: 1px solid #555555;
                    padding: 5px;
                }
                QPushButton:hover {
                    background-color: #4b4b4b;
                }
                QLabel {
                    color: #ffffff;
                }
                QSlider::groove:horizontal {
                    border: 1px solid #999999;
                    height: 8px;
                    background: #4b4b4b;
                    margin: 2px 0;
                }
                QSlider::handle:horizontal {
                    background: #ffffff;
                    border: 1px solid #5c5c5c;
                    width: 18px;
                    margin: -2px 0;
                    border-radius: 3px;
                }
            ".

(** [set_theme]: the window's new style sheet. *)
Definition set_theme (theme : string) : string :=
  if String.eqb theme "dark" then dark_style_sheet else "".

(** [toggle_theme], from the window's current style sheet to its next one:
    a non-empty style sheet counts as the dark theme. *)
Definition toggle_theme (style_sheet : string) : string :=
  let current_theme := if String.eqb style_sheet "" then "light" else "dark" in
  set_theme (if String.eqb current_theme "dark" then "light" else "dark").

(** The events whose handlers only look at the images: saving, resizing,
    starting and stopping the camera, pressing the button. *)
Definition is_passive (e : event) : bool :=
  match e with
  | EvSave _ _ | EvResize _ | EvStartLive _ | EvStopLive | EvMousePress _ => true
  | _ => false
  end.

(** * Properties *)

(** ** Unfolding the monad *)

(** Reduce the monad combinators, the store primitives, and the field
    reads and writes, and nothing else. *)
Ltac step_monad :=
  cbv beta iota zeta delta
    [exec try_except bind gets modify lift ret raise show
     copy deref alloc store fst snd
     heap original_image processed_image image_history current_history_index
     is_live_preview cap timer is_drawing last_point blur_slider
     brightness_slider label_size pixmap dialogs
     set_heap set_original_image set_processed_image set_image_history
     set_current_history_index set_is_live_preview set_cap set_timer
     set_is_drawing set_last_point set_blur_slider set_brightness_slider
     set_label_size set_pixmap set_dialogs].

(** ** Python slices and indices *)

Lemma slice_to_take {A} (l : list A) (k : Z) :
  0 ≤ k → Py.slice_to l k = take (Z.to_nat k) l.
Proof.
  intros Hk. unfold Py.slice_to.
  destruct (0 <=? k) eqn:E; [done | apply Z.leb_gt in E; lia].
Qed.

Lemma index_lookup {A} (l : list A) (i : nat) (x : A) :
  l !! i = Some x → Py.index l (Z.of_nat i) = Ok x.
Proof.
  intros Hl. unfold Py.index.
  destruct (Z.of_nat i <? 0) eqn:E; [apply Z.ltb_lt in E; lia |].
  rewrite E, Nat2Z.id, Hl. done.
Qed.

(** ** Recording a snapshot *)

(** What [add_to_history] computes when an image is loaded: the state it
    returns, field by field. *)
Lemma add_to_history_eq (s : ImageProcessingApp) (r : ref) (img : ndarray) :
  processed_image s = Some r →
  heap s !! r = Some img →
  add_to_history s =
    (Ok tt,
     let h := Py.slice_to (image_history s) (current_history_index s + 1)
                ++ [length (heap s)] in
     set_current_history_index
       (set_image_history (set_heap s (heap s ++ [img])) h)
       (Z.of_nat (length h) - 1)).
Proof.
  intros Hp Hr. destruct s; simpl in *; subst.
  unfold add_to_history. step_monad. by rewrite Hr.
Qed.

Lemma add_to_history_none (s : ImageProcessingApp) :
  processed_image s = None → add_to_history s = (Ok tt, s).
Proof.
  intros Hp. destruct s; simpl in *; subst. done.
Qed.

(** C1. With an image loaded, [add_to_history] keeps exactly the entries at
    positions up to the current index, appends a new array object whose
    content is the processed image, and makes that entry the current one:
    the index is the last position, and [redo] has nothing to move to. *)
Theorem add_to_history_appends_current
    (cv2 : Cv2) (s : ImageProcessingApp) (r : ref) (img : ndarray) :
  processed_image s = Some r →
  heap s !! r = Some img →
  -1 ≤ current_history_index s →
  let s' := exec add_to_history s in
  let c := length (heap s) in
  add_to_history s = (Ok tt, s') ∧
  image_history s' =
    take (Z.to_nat (current_history_index s + 1)) (image_history s) ++ [c] ∧
  c ≠ r ∧ heap s' !! c = Some img ∧ heap s' !! r = Some img ∧
  current_history_index s' = Z.of_nat (length (image_history s')) - 1 ∧
  Py.index (image_history s') (current_history_index s') = Ok c ∧
  processed_image s' = Some r ∧
  original_image s' = original_image s ∧
  redo cv2 s' = (Ok tt, s').
Proof.
  intros Hp Hr Hidx s' c.
  assert (Hlt : (r < length (heap s))%nat) by (eapply lookup_lt_Some; eauto).
  subst s' c. unfold exec.
  rewrite (add_to_history_eq s r img Hp Hr), slice_to_take by lia.
  cbn -[take].
  set (h := take (Z.to_nat (current_history_index s + 1)) (image_history s)
              ++ [length (heap s)]).
  assert (Hh : Z.of_nat (length h) - 1 = Z.of_nat (length h - 1)).
  { subst h. rewrite length_app. simpl. lia. }
  repeat split; try done.
  - lia.
  - by rewrite lookup_app_r, Nat.sub_diag.
  - by rewrite lookup_app_l.
  - rewrite Hh. apply index_lookup. subst h.
    rewrite length_app. simpl.
    rewrite lookup_app_r by lia.
    replace (length _ + 1 - 1 - length _)%nat with 0%nat by lia. done.
  - unfold redo. step_monad. by rewrite Z.ltb_irrefl.
Qed.

Lemma add_to_history_appends_current_witness :
  processed_image undone_state = Some 3%nat ∧
  -1 ≤ current_history_index undone_state ∧
  image_history (exec add_to_history undone_state) = [1%nat; 4%nat] ∧
  current_history_index (exec add_to_history undone_state) = 1.
Proof.
  pose proof (add_to_history_appends_current echo_cv2 undone_state 3%nat sample_image'
                eq_refl eq_refl ltac:(cbn; lia)) as H.
  cbv zeta in H. destruct H as (_ & Hh & _ & _ & _ & Hi & _).
  split; [reflexivity |]. split; [cbn; lia |]. split; [exact Hh | exact Hi].
Defined.

(** ** Undo and redo over recorded snapshots *)

Lemma lookup_fmap_grow (h ext : list ndarray) (rs : list ref) (imgs : list ndarray) :
  (λ r, h !! r) <$> rs = Some <$> imgs →
  (λ r, (h ++ ext) !! r) <$> rs = Some <$> imgs.
Proof.
  revert imgs. induction rs as [|r rs IH]; intros [|img imgs] H; simplify_eq/=.
  - done.
  - f_equal; [by apply lookup_app_l_Some | by apply IH].
Qed.

Lemma snapshots_lookup (s : ImageProcessingApp) (imgs : list ndarray) (i : nat) (img : ndarray) :
  snapshots s = Some <$> imgs → imgs !! i = Some img →
  ∃ r, image_history s !! i = Some r ∧ heap s !! r = Some img.
Proof.
  intros Hs Hi. unfold snapshots in Hs.
  assert (H : ((λ r, heap s !! r) <$> image_history s) !! i = Some (Some img)).
  { rewrite Hs, list_lookup_fmap, Hi. done. }
  rewrite list_lookup_fmap in H.
  destruct (image_history s !! i) as [r|]; simplify_eq/=. eauto.
Qed.

Lemma snapshots_length (s : ImageProcessingApp) (imgs : list ndarray) :
  snapshots s = Some <$> imgs → length (image_history s) = length imgs.
Proof.
  intros Hs. apply (f_equal length) in Hs. unfold snapshots in Hs.
  by rewrite !length_fmap in Hs.
Qed.

(** [record] on a history whose last entry is current (or that is empty). *)
Lemma record_holds (s : ImageProcessingApp) (imgs : list ndarray) (img : ndarray) :
  snapshots s = Some <$> imgs →
  current_history_index s = Z.of_nat (length imgs) - 1 →
  let s' := exec (record img) s in
  snapshots s' = Some <$> (imgs ++ [img]) ∧
  current_history_index s' = Z.of_nat (length (imgs ++ [img])) - 1.
Proof.
  intros Hs Hi. pose proof (snapshots_length _ _ Hs) as Hlen.
  unfold snapshots in *. destruct s; simpl in *; subst.
  unfold record, assign_processed_image, add_to_history. step_monad.
  rewrite lookup_app_r, Nat.sub_diag by lia.
  change ([img] !! 0%nat) with (Some img). step_monad.
  rewrite slice_to_take, take_ge by lia.
  split.
  - rewrite !fmap_app. f_equal.
    + by do 2 apply lookup_fmap_grow.
    + simpl. rewrite lookup_app_r by (rewrite length_app; simpl; lia).
      rewrite length_app. simpl.
      replace (length heap0 + 1 - (length heap0 + 1))%nat with 0%nat by lia.
      done.
  - rewrite !length_app. simpl. lia.
Qed.

Lemma record_all_holds (imgs : list ndarray) (s : ImageProcessingApp) :
  image_history s = [] → current_history_index s = -1 →
  let s' := record_all imgs s in
  snapshots s' = Some <$> imgs ∧
  current_history_index s' = Z.of_nat (length imgs) - 1.
Proof.
  intros Hh Hi. induction imgs as [|img imgs IH] using rev_ind.
  - simpl. unfold snapshots. rewrite Hh, Hi. done.
  - unfold record_all in *. rewrite foldl_app. simpl.
    destruct IH as [IH1 IH2]. by apply record_holds.
Qed.

Lemma undo_exec (cv2 : Cv2) (s : ImageProcessingApp) (k : nat) (r : ref) (a : ndarray) :
  current_history_index s = Z.of_nat (S k) →
  image_history s !! k = Some r →
  heap s !! r = Some a →
  exec (undo cv2) s = after_display cv2 (loaded_entry s k a) a.
Proof.
  intros Hi Hh Hr. destruct s; simpl in *; subst.
  unfold undo, load_current_entry, update_image_display, after_display, loaded_entry.
  step_monad.
  replace (0 <? Z.of_nat (S k)) with true by (symmetry; apply Z.ltb_lt; lia).
  replace (Z.of_nat (S k) - 1) with (Z.of_nat k) by lia.
  rewrite (index_lookup _ _ _ Hh). step_monad. rewrite Hr. step_monad.
  rewrite lookup_app_r, Nat.sub_diag by lia.
  change ([a] !! 0%nat) with (Some a). step_monad.
  destruct (display_array cv2 a); by step_monad.
Qed.

Lemma redo_exec (cv2 : Cv2) (s : ImageProcessingApp) (k : nat) (r : ref) (a : ndarray) :
  current_history_index s = Z.of_nat k →
  image_history s !! S k = Some r →
  heap s !! r = Some a →
  exec (redo cv2) s = after_display cv2 (loaded_entry s (S k) a) a.
Proof.
  intros Hi Hh Hr. pose proof (lookup_lt_Some _ _ _ Hh) as Hlt.
  destruct s; simpl in *; subst.
  unfold redo, load_current_entry, update_image_display, after_display, loaded_entry.
  step_monad.
  replace (Z.of_nat k <? Z.of_nat (length image_history0) - 1) with true
    by (symmetry; apply Z.ltb_lt; lia).
  replace (Z.of_nat k + 1) with (Z.of_nat (S k)) by lia.
  rewrite (index_lookup _ _ _ Hh). step_monad. rewrite Hr. step_monad.
  rewrite lookup_app_r, Nat.sub_diag by lia.
  change ([a] !! 0%nat) with (Some a). step_monad.
  destruct (display_array cv2 a); by step_monad.
Qed.

Lemma undo_eq (cv2 : Cv2) (s : ImageProcessingApp) (k : nat) (r : ref)
    (a shown : ndarray) :
  current_history_index s = Z.of_nat (S k) →
  image_history s !! k = Some r →
  heap s !! r = Some a →
  display_array cv2 a = Ok shown →
  undo cv2 s = (Ok tt, shown_entry s k a shown).
Proof.
  intros Hi Hh Hr Hd. destruct s; simpl in *; subst.
  unfold undo, load_current_entry, update_image_display, shown_entry, loaded_entry,
    displayed.
  step_monad.
  replace (0 <? Z.of_nat (S k)) with true by (symmetry; apply Z.ltb_lt; lia).
  replace (Z.of_nat (S k) - 1) with (Z.of_nat k) by lia.
  rewrite (index_lookup _ _ _ Hh). step_monad. rewrite Hr. step_monad.
  rewrite lookup_app_r, Nat.sub_diag by lia.
  change ([a] !! 0%nat) with (Some a). step_monad.
  rewrite Hd. by step_monad.
Qed.

Lemma redo_eq (cv2 : Cv2) (s : ImageProcessingApp) (k : nat) (r : ref)
    (a shown : ndarray) :
  current_history_index s = Z.of_nat k →
  image_history s !! S k = Some r →
  heap s !! r = Some a →
  display_array cv2 a = Ok shown →
  redo cv2 s = (Ok tt, shown_entry s (S k) a shown).
Proof.
  intros Hi Hh Hr Hd. pose proof (lookup_lt_Some _ _ _ Hh) as Hlt.
  destruct s; simpl in *; subst.
  unfold redo, load_current_entry, update_image_display, shown_entry, loaded_entry,
    displayed.
  step_monad.
  replace (Z.of_nat k <? Z.of_nat (length image_history0) - 1) with true
    by (symmetry; apply Z.ltb_lt; lia).
  replace (Z.of_nat k + 1) with (Z.of_nat (S k)) by lia.
  rewrite (index_lookup _ _ _ Hh). step_monad. rewrite Hr. step_monad.
  rewrite lookup_app_r, Nat.sub_diag by lia.
  change ([a] !! 0%nat) with (Some a). step_monad.
  rewrite Hd. by step_monad.
Qed.

(** A refresh of the display, whether it succeeds or raises, touches
    nothing but the pixmap. *)
Lemma after_display_fields (cv2 : Cv2) (s : ImageProcessingApp) (a : ndarray) :
  heap (after_display cv2 s a) = heap s ∧
  original_image (after_display cv2 s a) = original_image s ∧
  processed_image (after_display cv2 s a) = processed_image s ∧
  image_history (after_display cv2 s a) = image_history s ∧
  current_history_index (after_display cv2 s a) = current_history_index s.
Proof. unfold after_display. by destruct (display_array cv2 a). Qed.

Lemma loaded_entry_holds (cv2 : Cv2) (s : ImageProcessingApp)
    (imgs : list ndarray) (i : nat) (a : ndarray) :
  snapshots s = Some <$> imgs →
  let s' := after_display cv2 (loaded_entry s i a) a in
  holds s' imgs i ∧
  image_history s' = image_history s ∧
  value_of s' (processed_image s') = Some a ∧
  original_image s' = original_image s ∧
  heap s' = heap s ++ [a].
Proof.
  intros Hs s'.
  destruct (after_display_fields cv2 (loaded_entry s i a) a) as (Hh & Ho & Hp & Hi & Hx).
  fold s' in Hh, Ho, Hp, Hi, Hx.
  unfold holds, snapshots, value_of in *. rewrite Hh, Ho, Hp, Hi, Hx.
  unfold loaded_entry. cbn.
  repeat split; try done.
  - by apply lookup_fmap_grow.
  - by rewrite lookup_app_r, Nat.sub_diag.
Qed.

Lemma undo_step (cv2 : Cv2) (s : ImageProcessingApp) (imgs : list ndarray)
    (k : nat) (a : ndarray) :
  holds s imgs (S k) → imgs !! k = Some a →
  let s' := exec (undo cv2) s in
  holds s' imgs k ∧
  image_history s' = image_history s ∧
  value_of s' (processed_image s') = Some a.
Proof.
  intros [Hs Hi] Ha.
  destruct (snapshots_lookup s imgs k a Hs Ha) as (r & Hh & Hr).
  cbv zeta. rewrite (undo_exec cv2 s k r a Hi Hh Hr).
  destruct (loaded_entry_holds cv2 s imgs k a Hs) as (? & ? & ? & _). done.
Qed.

Lemma redo_step (cv2 : Cv2) (s : ImageProcessingApp) (imgs : list ndarray)
    (k : nat) (a : ndarray) :
  holds s imgs k → imgs !! S k = Some a →
  let s' := exec (redo cv2) s in
  holds s' imgs (S k) ∧
  image_history s' = image_history s ∧
  value_of s' (processed_image s') = Some a.
Proof.
  intros [Hs Hi] Ha.
  destruct (snapshots_lookup s imgs (S k) a Hs Ha) as (r & Hh & Hr).
  cbv zeta. rewrite (redo_exec cv2 s k r a Hi Hh Hr).
  destruct (loaded_entry_holds cv2 s imgs (S k) a Hs) as (? & ? & ? & _). done.
Qed.

(** [n] undos from entry [j + n] pass through the entries below it, highest
    first, and stop at entry [j]. *)
Lemma visit_undo (cv2 : Cv2) (imgs : list ndarray) (n j : nat) (s : ImageProcessingApp) :
  holds s imgs (j + n) → (j + n < length imgs)%nat →
  let '(seen, s') := visit (undo cv2) n s in
  seen = Some <$> reverse (take n (drop j imgs)) ∧
  holds s' imgs j ∧ image_history s' = image_history s.
Proof.
  revert s. induction n as [|n IH]; intros s Hs Hlt.
  - simpl. rewrite Nat.add_0_r in Hs. done.
  - destruct (lookup_lt_is_Some_2 imgs (j + n)) as [a Ha]; [lia |].
    replace (j + S n)%nat with (S (j + n)) in Hs by lia.
    destruct (undo_step cv2 s imgs (j + n) a Hs Ha) as (Hs' & Hh & Hv).
    simpl. specialize (IH (exec (undo cv2) s) Hs' ltac:(lia)).
    destruct (visit (undo cv2) n (exec (undo cv2) s)) as [seen s''].
    destruct IH as (-> & Hj & Hh'). split; [| split; [done | congruence]].
    rewrite Hv.
    rewrite (take_S_r _ _ a) by (rewrite lookup_drop; done).
    by rewrite reverse_snoc.
Qed.

(** [n] redos from entry [j] pass through the [n] entries above it, lowest
    first. *)
Lemma visit_redo (cv2 : Cv2) (imgs : list ndarray) (n j : nat) (s : ImageProcessingApp) :
  holds s imgs j → (j + n < length imgs)%nat →
  let '(seen, s') := visit (redo cv2) n s in
  seen = Some <$> take n (drop (S j) imgs) ∧
  holds s' imgs (j + n) ∧ image_history s' = image_history s.
Proof.
  revert j s. induction n as [|n IH]; intros j s Hs Hlt.
  - simpl. rewrite Nat.add_0_r. done.
  - destruct (lookup_lt_is_Some_2 imgs (S j)) as [a Ha]; [lia |].
    destruct (redo_step cv2 s imgs j a Hs Ha) as (Hs' & Hh & Hv).
    simpl. specialize (IH (S j) (exec (redo cv2) s) Hs' ltac:(lia)).
    destruct (visit (redo cv2) n (exec (redo cv2) s)) as [seen s''].
    destruct IH as (-> & Hj & Hh'). split; [| split].
    + rewrite Hv, (drop_S _ a (S j)) by done. done.
    + by replace (j + S n)%nat with (S j + n)%nat by lia.
    + congruence.
Qed.

(** C2. From an empty history, record the [N >= 1] images [imgs] one after
    the other. Then [N - 1] undos show the snapshots below the last one in
    reverse order, [N - 1] redos show them again in forward order up to the
    last one, and the history and the current index end as they were just
    after the records. *)
Theorem undo_redo_round_trip (cv2 : Cv2) (s : ImageProcessingApp) (imgs : list ndarray) :
  image_history s = [] →
  current_history_index s = -1 →
  (1 ≤ length imgs)%nat →
  let n := length imgs in
  let s0 := record_all imgs s in
  let '(seen_back, s1) := visit (undo cv2) (n - 1) s0 in
  let '(seen_forth, s2) := visit (redo cv2) (n - 1) s1 in
  snapshots s0 = Some <$> imgs ∧
  current_history_index s0 = Z.of_nat n - 1 ∧
  seen_back = Some <$> reverse (take (n - 1) imgs) ∧
  current_history_index s1 = 0 ∧
  seen_forth = Some <$> drop 1 imgs ∧
  image_history s2 = image_history s0 ∧
  snapshots s2 = snapshots s0 ∧
  current_history_index s2 = current_history_index s0.
Proof.
  intros Hh Hi Hn n s0.
  destruct (record_all_holds imgs s Hh Hi) as [Hs0 Hi0]. fold s0 in Hs0, Hi0.
  assert (H0 : holds s0 imgs (0 + (n - 1))).
  { split; [done |]. rewrite Hi0. subst n. lia. }
  pose proof (visit_undo cv2 imgs (n - 1) 0 s0 H0 ltac:(subst n; lia)) as Hu.
  destruct (visit (undo cv2) (n - 1) s0) as [seen_back s1].
  destruct Hu as (-> & H1 & Hh1).
  pose proof (visit_redo cv2 imgs (n - 1) 0 s1 H1 ltac:(subst n; lia)) as Hr.
  destruct (visit (redo cv2) (n - 1) s1) as [seen_forth s2].
  destruct Hr as (-> & [Hs2 Hi2] & Hh2).
  repeat split; try done.
  - by destruct H1.
  - rewrite take_ge; [done |]. rewrite length_drop. subst n. lia.
  - congruence.
  - congruence.
  - rewrite Hi2, Hi0. subst n. lia.
Qed.

Lemma undo_redo_round_trip_witness :
  let s0 := record_all [sample_image; sample_image'; sample_image] (init (1200, 900)) in
  (visit (undo echo_cv2) 2 s0).1 = [Some sample_image'; Some sample_image] ∧
  (visit (redo echo_cv2) 2 (visit (undo echo_cv2) 2 s0).2).1 = [Some sample_image'; Some sample_image] ∧
  current_history_index (visit (redo echo_cv2) 2 (visit (undo echo_cv2) 2 s0).2).2 = 2.
Proof.
  pose proof (undo_redo_round_trip echo_cv2 (init (1200, 900))
                [sample_image; sample_image'; sample_image]
                eq_refl eq_refl ltac:(cbn; lia)) as H.
  cbv zeta in H. cbn [length Nat.sub] in H.
  destruct (visit (undo echo_cv2) 2 _) as [seen_back s1] eqn:E1 in H.
  destruct (visit (redo echo_cv2) 2 s1) as [seen_forth s2] eqn:E2 in H.
  destruct H as (_ & Hi0 & Hb & _ & Hf & _ & _ & Hi2).
  intros s0. subst s0. rewrite E1. cbn [fst snd]. rewrite E2. cbn [fst snd].
  split; [exact Hb |]. split; [exact Hf |]. rewrite Hi2. exact Hi0.
Defined.

(** ** The history invariant *)

Lemma history_inv_alt (s : ImageProcessingApp) :
  history_inv s ↔
  (length (image_history s) = 0%nat ∧ current_history_index s = -1) ∨
  (0 ≤ current_history_index s ≤ Z.of_nat (length (image_history s)) - 1).
Proof.
  unfold history_inv. destruct (image_history s) as [|r h]; simpl.
  - split.
    + intros [H _]. left. auto.
    + intros [[_ H]|H]; [| lia]. split; [done | congruence].
  - split.
    + intros [_ H]. right. apply H. done.
    + intros [[H _]|H]; [lia |]. split; [done | auto].
Qed.

Section Preserves.
Context (P : ImageProcessingApp → Prop).

Lemma preserves_ret {A} (a : A) : preserves P (ret a).
Proof. by intros s. Qed.

Lemma preserves_raise {A} (e : string) : preserves P (@raise A e).
Proof. by intros s. Qed.

Lemma preserves_lift {A} (r : result A) : preserves P (lift r).
Proof. by intros s. Qed.

Lemma preserves_gets {A} (f : ImageProcessingApp → A) : preserves P (gets f).
Proof. by intros s. Qed.

Lemma preserves_deref (r : ref) : preserves P (deref r).
Proof. intros s Hs. unfold exec, deref. by destruct (heap s !! r). Qed.

Lemma preserves_bind {A B} (m : M A) (k : A → M B) :
  preserves P m → (∀ a, preserves P (k a)) → preserves P (bind m k).
Proof.
  intros Hm Hk s Hs. specialize (Hm s Hs). unfold exec, bind in *.
  destruct (m s) as [[a|e] s']; simpl in *; [by apply Hk | done].
Qed.

Lemma preserves_try_except {A} (body : M A) (handler : string → M A) :
  preserves P body → (∀ e, preserves P (handler e)) →
  preserves P (try_except body handler).
Proof.
  intros Hm Hk s Hs. specialize (Hm s Hs). unfold exec, try_except in *.
  destruct (body s) as [[a|e] s']; simpl in *; [done | by apply Hk].
Qed.

Lemma preserves_modify (f : ImageProcessingApp → ImageProcessingApp) :
  (∀ s, P s → P (f s)) → preserves P (modify f).
Proof. intros Hf s Hs. by apply Hf. Qed.

End Preserves.

(** Split a computation along its binds, handlers and case distinctions. *)
Ltac preserves_split :=
  repeat first
    [ apply preserves_ret | apply preserves_raise | apply preserves_lift
    | apply preserves_gets | apply preserves_deref
    | apply preserves_bind; [| intros ?]
    | apply preserves_try_except; [| intros ?]
    | match goal with
      | |- preserves _ (match ?x with _ => _ end) => destruct x
      end ].

Lemma preserves_history_neutral (f : ImageProcessingApp → ImageProcessingApp) :
  history_neutral f → preserves history_inv (modify f).
Proof.
  intros Hf. apply preserves_modify. intros s Hs.
  destruct (Hf s) as [Hh Hi]. unfold history_inv in *. by rewrite Hh, Hi.
Qed.

Ltac history_neutral_writes :=
  preserves_split;
  try (apply preserves_history_neutral; intros ?; by split).

Lemma alloc_history_inv (a : ndarray) : preserves history_inv (alloc a).
Proof. by intros s Hs. Qed.

Lemma store_history_inv (r : ref) (a : ndarray) : preserves history_inv (store r a).
Proof. by intros s Hs. Qed.

Lemma show_history_inv (d : dialog) : preserves history_inv (show d).
Proof. by intros s Hs. Qed.

Lemma copy_history_inv (r : ref) : preserves history_inv (copy r).
Proof. unfold copy. preserves_split. apply alloc_history_inv. Qed.

Lemma update_image_display_history_inv (cv2 : Cv2) :
  preserves history_inv (update_image_display cv2).
Proof. unfold update_image_display. history_neutral_writes. Qed.

Lemma add_to_history_inv : preserves history_inv add_to_history.
Proof.
  intros s Hs. apply history_inv_alt in Hs. apply history_inv_alt.
  destruct s; simpl in *. unfold add_to_history. step_monad.
  destruct processed_image0 as [r|]; [| by step_monad].
  step_monad.
  assert (Hlen : length (Py.slice_to image_history0 (current_history_index0 + 1))
                 = Z.to_nat (current_history_index0 + 1)).
  { rewrite slice_to_take by lia. rewrite length_take. lia. }
  destruct (heap0 !! r) as [a|]; step_monad.
  - right. rewrite length_app, Hlen. simpl. lia.
  - rewrite Hlen. lia.
Qed.

Lemma load_current_entry_history_inv : preserves history_inv load_current_entry.
Proof.
  unfold load_current_entry. history_neutral_writes.
Qed.

Lemma show_entry_history_inv (cv2 : Cv2) :
  preserves history_inv (load_current_entry >> update_image_display cv2).
Proof.
  apply preserves_bind; [apply load_current_entry_history_inv |].
  intros _. apply update_image_display_history_inv.
Qed.

Lemma undo_history_inv (cv2 : Cv2) : preserves history_inv (undo cv2).
Proof.
  intros s Hs. unfold exec, undo, bind at 1, gets at 1.
  destruct (0 <? current_history_index s) eqn:E; [| done].
  apply Z.ltb_lt in E. unfold bind at 1, modify at 1.
  apply show_entry_history_inv.
  apply history_inv_alt in Hs. apply history_inv_alt.
  destruct s; simpl in *. lia.
Qed.

Lemma redo_history_inv (cv2 : Cv2) : preserves history_inv (redo cv2).
Proof.
  intros s Hs. unfold exec, redo, bind at 1, gets at 1.
  unfold bind at 1, gets at 1.
  destruct (_ <? _) eqn:E; [| done].
  apply Z.ltb_lt in E. unfold bind at 1, modify at 1.
  apply show_entry_history_inv.
  apply history_inv_alt in Hs. apply history_inv_alt.
  destruct s; simpl in *. lia.
Qed.

Ltac history_inv_auto :=
  repeat first
    [ apply add_to_history_inv | apply undo_history_inv | apply redo_history_inv
    | apply update_image_display_history_inv
    | apply preserves_ret | apply preserves_raise | apply preserves_lift
    | apply preserves_gets | apply preserves_deref
    | apply alloc_history_inv | apply store_history_inv | apply show_history_inv
    | apply copy_history_inv
    | apply preserves_history_neutral; intros ?; by split
    | apply preserves_bind; [| intros ?]
    | apply preserves_try_except; [| intros ?]
    | match goal with
      | |- preserves _ (match ?x with _ => _ end) => destruct x
      end ].

Lemma apply_filter_history_inv (cv2 : Cv2) (filter_name : string) :
  preserves history_inv (apply_filter cv2 filter_name).
Proof.
  unfold apply_filter, filter_transform, the_processed_image,
    assign_processed_image.
  history_inv_auto.
Qed.

Lemma handle_history_inv (cv2 : Cv2) (e : event) :
  preserves history_inv (handle cv2 e).
Proof.
  destruct e; cbn [handle].
  - unfold open_image, load_image. history_inv_auto.
  - unfold dropEvent, load_image. history_inv_auto.
  - apply apply_filter_history_inv.
  - unfold blur_slider_moved. history_inv_auto.
  - unfold brightness_slider_moved. history_inv_auto.
  - unfold reset_image. history_inv_auto.
  - unfold clear_drawing. history_inv_auto.
  - apply undo_history_inv.
  - apply redo_history_inv.
  - unfold start_live_preview, stop_live_preview. history_inv_auto.
  - unfold stop_live_preview. history_inv_auto.
  - unfold update_live_preview, assign_processed_image. history_inv_auto.
  - unfold resizeEvent. history_inv_auto.
  - unfold mouse_press_event. history_inv_auto.
  - unfold mouse_move_event, get_image_rect. history_inv_auto.
  - unfold mouse_release_event. history_inv_auto.
  - unfold save_image. history_inv_auto.
Qed.

Lemma run_history_inv (cv2 : Cv2) (es : list event) (s : ImageProcessingApp) :
  history_inv s → history_inv (run cv2 es s).
Proof.
  revert s. induction es as [|e es IH]; intros s Hs; [done |].
  simpl. apply IH. by apply handle_history_inv.
Qed.

(** C3. The history invariant holds for the freshly constructed object, is
    kept by [add_to_history], [undo] and [redo] from any state that has it,
    and therefore holds after every sequence of events. *)
Theorem history_index_invariant (cv2 : Cv2) :
  (∀ lbl, history_inv (init lbl)) ∧
  (∀ s, history_inv s →
        history_inv (exec add_to_history s) ∧
        history_inv (exec (undo cv2) s) ∧
        history_inv (exec (redo cv2) s)) ∧
  (∀ lbl es, history_inv (run cv2 es (init lbl))).
Proof.
  assert (Hinit : ∀ lbl, history_inv (init lbl)).
  { intros lbl. split; [done |]. intros H. by destruct H. }
  split; [done |]. split.
  - intros s Hs. split; [| split].
    + by apply add_to_history_inv.
    + by apply undo_history_inv.
    + by apply redo_history_inv.
  - intros lbl es. by apply run_history_inv.
Qed.

Lemma history_index_invariant_witness :
  history_inv undone_state ∧
  history_inv (exec add_to_history undone_state) ∧
  history_inv (exec (undo echo_cv2) undone_state) ∧
  history_inv (exec (redo echo_cv2) undone_state).
Proof.
  assert (H : history_inv undone_state).
  { split; [discriminate | intros _; cbn; lia]. }
  split; [exact H |].
  exact (proj1 (proj2 (history_index_invariant echo_cv2)) undone_state H).
Defined.

(** ** Filters without an image *)

(** C9. With no image loaded, [apply_filter] returns after showing the
    warning; the dialog is the only trace it leaves. *)
Theorem apply_filter_without_image
    (cv2 : Cv2) (filter_name : string) (s : ImageProcessingApp) :
  processed_image s = None →
  let s' := exec (apply_filter cv2 filter_name) s in
  apply_filter cv2 filter_name s = (Ok tt, s') ∧
  s' = set_dialogs s (dialogs s ++ [Warning "Warning" "Please open an image first!"]) ∧
  processed_image s' = None ∧
  original_image s' = original_image s ∧
  image_history s' = image_history s ∧
  current_history_index s' = current_history_index s ∧
  heap s' = heap s.
Proof.
  intros Hp. destruct s; simpl in *; subst. done.
Qed.

Lemma apply_filter_without_image_witness :
  processed_image (init (1200, 900)) = None ∧
  exec (apply_filter echo_cv2 "Sharpen") (init (1200, 900)) =
    set_dialogs (init (1200, 900)) [Warning "Warning" "Please open an image first!"].
Proof.
  split; [reflexivity |].
  exact (proj1 (proj2 (apply_filter_without_image echo_cv2 "Sharpen"
                         (init (1200, 900)) eq_refl))).
Defined.

(** ** Reset and Clear Drawing *)

(** [reset_image] copies the original, refreshes the display and records
    the copy; when the refresh raises, the copy has been made and nothing
    is recorded. *)
Lemma reset_image_run (cv2 : Cv2) (s : ImageProcessingApp) (r : ref) (img : ndarray) :
  original_image s = Some r → heap s !! r = Some img →
  reset_image cv2 s =
    match display_array cv2 img with
    | Ok shown => (Ok tt, restored s img shown)
    | Raise e => (Raise e, copied s img)
    end.
Proof.
  intros Ho Hr. destruct s; simpl in *; subst.
  unfold reset_image, update_image_display, add_to_history, restored, copied.
  step_monad.
  rewrite Hr. step_monad.
  rewrite lookup_app_r, Nat.sub_diag by lia.
  change ([img] !! 0%nat) with (Some img). step_monad.
  destruct (display_array cv2 img) as [shown|e]; step_monad; [| done].
  rewrite lookup_app_r, Nat.sub_diag by lia.
  change ([img] !! 0%nat) with (Some img). step_monad.
  rewrite <- !(assoc_L (++)), !length_app, Nat.add_1_r. done.
Qed.

Lemma reset_image_eq (cv2 : Cv2) (s : ImageProcessingApp) (r : ref) (img shown : ndarray) :
  original_image s = Some r → heap s !! r = Some img →
  display_array cv2 img = Ok shown →
  reset_image cv2 s = (Ok tt, restored s img shown).
Proof. intros Ho Hr Hd. by rewrite (reset_image_run cv2 s r img Ho Hr), Hd. Qed.

Lemma reset_image_clear_drawing_eq (cv2 : Cv2) (s : ImageProcessingApp) :
  original_image s ≠ None → reset_image cv2 s = clear_drawing cv2 s.
Proof.
  intros Ho. unfold reset_image, clear_drawing, bind, gets.
  by destruct (original_image s).
Qed.

(** C8. Whatever state the edits have left, as long as an original image
    [img] is held, [reset_image] makes the processed image a separate array
    with the content [img], and the original still holds [img]; this is so
    even when the refresh of the display raises, and the call returns
    normally when the conversion for display succeeds. *)
Theorem reset_image_restores_original
    (cv2 : Cv2) (s : ImageProcessingApp) (r : ref) (img : ndarray) :
  original_image s = Some r →
  heap s !! r = Some img →
  let s' := exec (reset_image cv2) s in
  (∀ shown, display_array cv2 img = Ok shown → reset_image cv2 s = (Ok tt, s')) ∧
  value_of s' (processed_image s') = Some img ∧
  value_of s' (original_image s') = Some img ∧
  original_image s' = Some r ∧
  processed_image s' ≠ original_image s'.
Proof.
  intros Ho Hr s'. subst s'. unfold exec.
  rewrite (reset_image_run cv2 s r img Ho Hr).
  pose proof (lookup_lt_Some _ _ _ Hr) as Hlt.
  destruct (display_array cv2 img) as [shown|e]; cbn [snd];
    unfold restored, copied, value_of; cbn; rewrite Ho; cbn.
  - repeat split; try done.
    + rewrite lookup_app_r, Nat.sub_diag; done.
    + by apply lookup_app_l_Some.
    + intros [= H]. lia.
  - repeat split; try done.
    + rewrite lookup_app_r, Nat.sub_diag; done.
    + by apply lookup_app_l_Some.
    + intros [= H]. lia.
Qed.

Lemma reset_image_restores_original_witness :
  original_image undone_state = Some 0%nat ∧
  value_of undone_state (processed_image undone_state) = Some sample_image' ∧
  value_of (exec (reset_image echo_cv2) undone_state)
    (processed_image (exec (reset_image echo_cv2) undone_state)) = Some sample_image.
Proof.
  split; [reflexivity |]. split; [reflexivity |].
  exact (proj1 (proj2 (reset_image_restores_original echo_cv2 undone_state 0%nat
                         sample_image eq_refl eq_refl))).
Defined.

(** C10. When an original image is held, [reset_image] and [clear_drawing]
    are the same transition: the processed image becomes a new copy of the
    original and, when the conversion for display succeeds, both return
    normally and one history entry holding that content is recorded. With
    no original, [clear_drawing] does nothing and [reset_image] only shows
    its warning. *)
Theorem reset_image_clear_drawing (cv2 : Cv2) (s : ImageProcessingApp) :
  (original_image s ≠ None → reset_image cv2 s = clear_drawing cv2 s) ∧
  (∀ r img, original_image s = Some r → heap s !! r = Some img →
     let s' := exec (clear_drawing cv2) s in
     let c := length (heap s) in
     (processed_image s' = Some c ∧ c ≠ r ∧ heap s' !! c = Some img) ∧
     (∀ shown, display_array cv2 img = Ok shown →
        reset_image cv2 s = (Ok tt, s') ∧ clear_drawing cv2 s = (Ok tt, s') ∧
        image_history s' =
          Py.slice_to (image_history s) (current_history_index s + 1) ++ [S c] ∧
        heap s' !! S c = Some img ∧
        current_history_index s' = Z.of_nat (length (image_history s')) - 1)) ∧
  (original_image s = None →
     clear_drawing cv2 s = (Ok tt, s) ∧
     reset_image cv2 s =
       (Ok tt, set_dialogs s (dialogs s ++ [Warning "Warning" "No image to reset!"]))).
Proof.
  split; [| split].
  - apply reset_image_clear_drawing_eq.
  - intros r img Ho Hr s' c.
    assert (Heq : clear_drawing cv2 s = reset_image cv2 s).
    { symmetry. apply reset_image_clear_drawing_eq. by rewrite Ho. }
    pose proof (lookup_lt_Some _ _ _ Hr) as Hlt.
    subst s' c. unfold exec. rewrite Heq, (reset_image_run cv2 s r img Ho Hr).
    split.
    + destruct (display_array cv2 img) as [shown|e]; cbn [snd];
        unfold restored, copied; cbn.
      * repeat split; [lia |]. rewrite lookup_app_r, Nat.sub_diag; done.
      * repeat split; [lia |]. rewrite lookup_app_r, Nat.sub_diag; done.
    + intros shown Hd. rewrite Hd. cbn [snd]. unfold restored. cbn.
      repeat split; try done.
      rewrite lookup_app_r by lia.
      replace (S (length (heap s)) - length (heap s))%nat with 1%nat by lia. done.
  - intros Ho. destruct s; simpl in *; subst. done.
Qed.

Lemma reset_image_clear_drawing_witness :
  original_image undone_state ≠ None ∧
  reset_image echo_cv2 undone_state = clear_drawing echo_cv2 undone_state ∧
  original_image (init (1200, 900)) = None ∧
  clear_drawing echo_cv2 (init (1200, 900)) = (Ok tt, init (1200, 900)).
Proof.
  split; [discriminate |].
  split; [exact (proj1 (reset_image_clear_drawing echo_cv2 undone_state)
                   ltac:(discriminate)) |].
  split; [reflexivity |].
  exact (proj1 (proj2 (proj2 (reset_image_clear_drawing echo_cv2 (init (1200, 900))))
                 eq_refl)).
Defined.

(** ** Gaussian blur *)

Lemma blur_kernel_size_spec (v : Z) :
  1 ≤ v → blur_kernel_size v = if Z.odd v then v else v + 1.
Proof.
  intros Hv. unfold blur_kernel_size, Py.mod_.
  destruct (v <? 1) eqn:E; [apply Z.ltb_lt in E; lia |].
  rewrite Zmod_odd. by destruct (Z.odd v).
Qed.

Lemma filter_transform_gaussian_blur (cv2 : Cv2) :
  filter_transform cv2 "Gaussian Blur" =
    (do v <- gets blur_slider;
     do img <- the_processed_image;
     do blurred <- lift (GaussianBlur cv2 img (blur_kernel_size v, blur_kernel_size v) 0);
     assign_processed_image blurred).
Proof. reflexivity. Qed.

(** C6. For a slider value [V] between 1 and 15 the kernel size is [V]
    when [V] is odd and [V + 1] when it is even, hence always odd, and this
    is the size with which the Gaussian Blur branch calls the library on
    the processed image. *)
Theorem gaussian_blur_kernel_is_odd (cv2 : Cv2) (V : Z) :
  1 ≤ V ≤ 15 →
  blur_kernel_size V = (if Z.odd V then V else V + 1) ∧
  Z.odd (blur_kernel_size V) = true ∧
  ∀ s r img,
    blur_slider s = V → processed_image s = Some r → heap s !! r = Some img →
    filter_transform cv2 "Gaussian Blur" s =
      (do blurred <- lift (GaussianBlur cv2 img
                             (if Z.odd V then V else V + 1,
                              if Z.odd V then V else V + 1) 0);
       assign_processed_image blurred) s.
Proof.
  intros HV. rewrite blur_kernel_size_spec by lia.
  split; [done |]. split.
  - destruct (Z.odd V) eqn:E; [done |].
    rewrite Z.add_1_r, Z.odd_succ, <- Z.negb_odd, E. done.
  - intros s r img Hb Hp Hr. rewrite filter_transform_gaussian_blur.
    destruct s; simpl in *; subst.
    unfold the_processed_image. step_monad. rewrite Hr. step_monad.
    by rewrite blur_kernel_size_spec by lia.
Qed.

Lemma gaussian_blur_kernel_is_odd_witness :
  1 ≤ 4 ≤ 15 ∧ blur_kernel_size 4 = 5 ∧ 1 ≤ 5 ≤ 15 ∧ blur_kernel_size 5 = 5.
Proof.
  split; [lia |].
  split; [exact (proj1 (gaussian_blur_kernel_is_odd echo_cv2 4 ltac:(lia))) |].
  split; [lia |].
  exact (proj1 (gaussian_blur_kernel_is_odd echo_cv2 5 ltac:(lia))).
Defined.

(** ** A filter that fails *)

(** Where an exception inside the filter chain can leave the object: as it
    was, or, for Grayscale alone, with the processed image already replaced
    by the single-channel intermediate, when it is the second conversion
    that raises. *)
Lemma filter_transform_raises
    (cv2 : Cv2) (filter_name : string) (s s' : ImageProcessingApp) (e : string) :
  filter_transform cv2 filter_name s = (Raise e, s') →
  s' = s ∨
  (filter_name = "Grayscale" ∧
   ∃ r img gray,
     processed_image s = Some r ∧ heap s !! r = Some img ∧
     cvtColor cv2 img COLOR_BGR2GRAY = Ok gray ∧
     cvtColor cv2 gray COLOR_GRAY2BGR = Raise e ∧
     s' = set_processed_image (set_heap s (heap s ++ [gray])) (Some (length (heap s)))).
Proof.
  unfold filter_transform, the_processed_image, assign_processed_image.
  destruct (String.eqb filter_name "Grayscale") eqn:En.
  - apply String.eqb_eq in En. destruct s; step_monad.
    destruct processed_image0 as [r|]; step_monad; [| intros [= <- <-]; by left].
    destruct (heap0 !! r) as [img|] eqn:Hr; step_monad; [| intros [= <- <-]; by left].
    destruct (cvtColor cv2 img COLOR_BGR2GRAY) as [gray|] eqn:Hg; step_monad;
      [| intros [= <- <-]; by left].
    rewrite lookup_app_r, Nat.sub_diag by lia.
    change ([gray] !! 0%nat) with (Some gray). step_monad.
    destruct (cvtColor cv2 gray COLOR_GRAY2BGR) as [bgr|] eqn:Hb; step_monad;
      [done |].
    intros [= <- <-]. right. split; [done |]. by exists r, img, gray.
  - intros H. left. destruct s; revert H; step_monad.
    repeat (case_match; step_monad; simplify_eq/=; try done);
      intros; simplify_eq/=; done.
Qed.

(** A raising filter chain is reported, and the object stays as the chain
    left it. *)
Lemma apply_filter_reports
    (cv2 : Cv2) (filter_name : string) (s s1 : ImageProcessingApp) (e : string) :
  processed_image s ≠ None →
  filter_transform cv2 filter_name s = (Raise e, s1) →
  apply_filter cv2 filter_name s =
    (Ok tt, set_dialogs s1 (dialogs s1 ++
              [Critical "Error" ("Failed to apply filter: " +:+ e)])).
Proof.
  intros Hp Hf. unfold apply_filter, bind at 1, gets at 1.
  destruct (processed_image s); [| done].
  unfold try_except, bind at 1. by rewrite Hf.
Qed.

(** Every failure of the filter itself, except the one in the second
    Grayscale conversion, leaves the processed image, the history and the
    store untouched. *)
Lemma apply_filter_failure_unchanged
    (cv2 : Cv2) (filter_name : string) (s s1 : ImageProcessingApp) (e : string) :
  processed_image s ≠ None →
  filter_transform cv2 filter_name s = (Raise e, s1) →
  filter_name ≠ "Grayscale" →
  apply_filter cv2 filter_name s =
    (Ok tt, set_dialogs s (dialogs s ++
              [Critical "Error" ("Failed to apply filter: " +:+ e)])).
Proof.
  intros Hp Hf Hn. rewrite (apply_filter_reports _ _ _ _ _ Hp Hf).
  destruct (filter_transform_raises _ _ _ _ _ Hf) as [-> | [? _]]; done.
Qed.

(** C4, on the Grayscale branch. The first conversion is stored into
    [processed_image] before the second one runs, so when the second
    conversion raises, the error is reported and no history entry is added,
    but the processed image is the single-channel intermediate and no
    longer the image that was there before the filter. *)
Theorem grayscale_failure_changes_processed_image :
  let s := opened_state in
  let s' := exec (apply_filter gray2bgr_failing_cv2 "Grayscale") s in
  value_of s (processed_image s) = Some sample_image ∧
  dialogs s' =
    [Critical "Error" "Failed to apply filter: cv2.error: Insufficient memory"] ∧
  image_history s' = image_history s ∧
  current_history_index s' = current_history_index s ∧
  value_of s' (processed_image s') = Some (mk_ndarray 1 2 [] [22; 52]) ∧
  value_of s' (processed_image s') ≠ value_of s (processed_image s).
Proof.
  vm_compute. repeat split; discriminate.
Qed.

(** ** Drawing: from label points to image pixels *)

(** What [mouse_move_event] does for a move inside the label while a
    stroke is active: the segment computed against the label's own
    rectangle is drawn into the processed image, in place, and the display
    is refreshed; when the refresh raises, the segment has been drawn and
    the last point is not advanced. *)
Lemma mouse_move_event_draws (cv2 : Cv2) (s : ImageProcessingApp)
    (r : ref) (img drawn : ndarray) (last current pm : Z * Z) :
  is_drawing s = true →
  processed_image s = Some r →
  heap s !! r = Some img →
  last_point s = Some last →
  pixmap s = Some pm →
  let img_rect := Qt.mk_QRect 0 0 (label_size s).1 (label_size s).2 in
  Qt.contains img_rect current = true →
  line cv2 img (segment_endpoints img_rect img last current).1
               (segment_endpoints img_rect img last current).2
               drawing_color drawing_thickness = Ok drawn →
  mouse_move_event cv2 current s =
    match display_array cv2 drawn with
    | Ok shown =>
        (Ok tt,
         set_last_point (displayed (set_heap s (<[r := drawn]> (heap s))) shown)
           (Some current))
    | Raise e => (Raise e, set_heap s (<[r := drawn]> (heap s)))
    end.
Proof.
  intros Hd Hp Hr Hl Hpm img_rect.
  pose proof (lookup_lt_Some _ _ _ Hr) as Hlt.
  destruct s as [? ? ? ? ? ? ? ? ? ? ? ? [lw lh] ? ?].
  cbn [is_drawing processed_image heap last_point pixmap label_size fst snd] in *.
  subst. intros Hc Hline.
  unfold mouse_move_event, get_image_rect, update_image_display, displayed.
  step_monad.
  fold img_rect. rewrite Hc. step_monad. rewrite Hr. step_monad.
  fold img_rect.
  destruct (segment_endpoints img_rect img last current) as [start stop] eqn:Es.
  cbn [fst snd] in Hline. rewrite Hline. step_monad.
  rewrite list_lookup_insert_eq by done. step_monad.
  destruct (display_array cv2 drawn); by step_monad.
Qed.

(** When the pixmap fills the label, the label's rectangle is the
    displayed one and the mapping is the expected one. *)
Lemma displayed_rect_full_label (s : ImageProcessingApp) :
  pixmap s = Some (label_size s) →
  displayed_rect s = Some (Qt.mk_QRect 0 0 (label_size s).1 (label_size s).2).
Proof.
  intros H. unfold displayed_rect, Qt.centered_rect. rewrite H. cbn.
  by rewrite !Z.sub_diag.
Qed.

(** C5, on a square image in a 4:3 label. The image is shown 900 pixels
    wide, 150 pixels in from the left; a move from its top-left corner
    (150, 0) to its centre (600, 450) should draw from pixel (0, 0) to
    pixel (15, 15). The handler maps against the whole label instead and
    draws from (3, 0). *)
Theorem stroke_ignores_centering_offset :
  let s := stroke_state in
  let s' := exec (mouse_move_event tracing_cv2 (600, 450)) s in
  pixmap s = Some (900, 900) ∧
  displayed_rect s = Some (Qt.mk_QRect 150 0 900 900) ∧
  get_image_rect s = (Ok (Some (Qt.mk_QRect 0 0 1200 900)), s) ∧
  segment_endpoints (Qt.mk_QRect 150 0 900 900) square_image (150, 0) (600, 450)
    = ((0, 0), (15, 15)) ∧
  segment_endpoints (Qt.mk_QRect 0 0 1200 900) square_image (150, 0) (600, 450)
    = ((3, 0), (15, 15)) ∧
  data <$> value_of s' (processed_image s') = Some [3; 0; 15; 15].
Proof.
  vm_compute. repeat split; reflexivity.
Qed.

(** ** Hue shift *)

Lemma hue_shift_byte_eq (h : Z) :
  0 ≤ h < 180 → hue_shift_byte h = if h <? 150 then h + 30 else h - 150.
Proof.
  intros Hh. unfold hue_shift_byte, Py.mod_.
  rewrite (Z.mod_small (h + 30) 256) by lia.
  destruct (Z.ltb_spec h 150).
  - apply Z.mod_small. lia.
  - symmetry. apply (Z.mod_unique_pos _ _ 1). lia. lia.
Qed.

Lemma hue_shift_byte_range (h : Z) :
  0 ≤ h < 180 → 0 ≤ hue_shift_byte h < 180.
Proof.
  intros Hh. rewrite hue_shift_byte_eq by done.
  destruct (Z.ltb_spec h 150); lia.
Qed.

(** On the hue bytes themselves, six shifts of 30 are the identity. *)
Lemma hue_shift_byte_six (h : Z) :
  0 ≤ h < 180 → Nat.iter 6 hue_shift_byte h = h.
Proof.
  intros Hh. cbv [Nat.iter nat_rect].
  do 6 (match goal with
        | |- context [hue_shift_byte ?x] =>
            lazymatch x with
            | context [hue_shift_byte _] => fail
            | _ => rewrite (hue_shift_byte_eq x) by lia;
                   destruct (Z.ltb_spec x 150); cbv beta iota; try lia
            end
        end).
Qed.

Lemma hue_bytes_map_compose (f g : Z → Z) (channels : Z) (bytes : list Z) :
  hue_bytes_map g channels (hue_bytes_map f channels bytes)
  = hue_bytes_map (g ∘ f) channels bytes.
Proof.
  unfold hue_bytes_map. apply list_eq. intros i.
  rewrite !list_lookup_imap. destruct (bytes !! i) as [x|]; simpl; [| done].
  by destruct (_ =? _).
Qed.

Lemma hue_shift_n_eq (n : nat) (hsv : ndarray) (channels : Z) :
  shape_rest hsv = [channels] →
  hue_shift_n n hsv =
    Ok (mk_ndarray (shape0 hsv) (shape1 hsv) [channels]
          (hue_bytes_map (Nat.iter n hue_shift_byte) channels (data hsv))).
Proof.
  intros Hc. induction n as [|n IH].
  - destruct hsv; simpl in *; subst. unfold hue_shift_n. simpl. do 2 f_equal.
    unfold hue_bytes_map. apply list_eq. intros i.
    rewrite list_lookup_imap. destruct (data0 !! i); simpl; [| done].
    by destruct (_ =? _).
  - unfold hue_shift_n in *. rewrite Nat.iter_succ, IH.
    unfold hue_shift. cbn [shape_rest shape0 shape1 data]. do 2 f_equal.
    rewrite <- (hue_bytes_map_compose (Nat.iter n hue_shift_byte) hue_shift_byte).
    done.
Qed.

(** On an HSV array whose hue bytes are below 180 (the range of 8-bit hue),
    six hue assignments in a row give the array back. *)
Lemma hue_shift_six (hsv : ndarray) (channels : Z) :
  shape_rest hsv = [channels] →
  (∀ i x, data hsv !! i = Some x → Z.of_nat i mod channels = 0 → 0 ≤ x < 180) →
  hue_shift_n 6 hsv = Ok hsv.
Proof.
  intros Hc Hrange. rewrite (hue_shift_n_eq 6 hsv channels Hc).
  destruct hsv as [h w rest bytes]; simpl in *; subst. do 2 f_equal.
  unfold hue_bytes_map. apply list_eq. intros i.
  rewrite list_lookup_imap. destruct (bytes !! i) as [x|] eqn:Hx; simpl; [| done].
  destruct (Z.eqb_spec (Z.of_nat i mod channels) 0) as [E|]; [| done].
  f_equal. apply hue_shift_byte_six. by apply (Hrange i).
Qed.

(** ** Six hue adjustments through the conversions *)

Lemma run_app (cv2 : Cv2) (es1 es2 : list event) (s : ImageProcessingApp) :
  run cv2 (es1 ++ es2) s = run cv2 es2 (run cv2 es1 s).
Proof. unfold run. apply foldl_app. Qed.

Lemma hue_bytes_six (channels : Z) (bytes : list Z) :
  (∀ i x, bytes !! i = Some x → Z.of_nat i mod channels = 0 → 0 ≤ x < 180) →
  hue_bytes_map (Nat.iter 6 hue_shift_byte) channels bytes = bytes.
Proof.
  intros Hrange. unfold hue_bytes_map. apply list_eq. intros i.
  rewrite list_lookup_imap. destruct (bytes !! i) as [x|] eqn:Hx; simpl; [| done].
  destruct (Z.eqb_spec (Z.of_nat i mod channels) 0) as [E|]; [| done].
  f_equal. apply hue_shift_byte_six. by apply (Hrange i).
Qed.

Lemma filter_transform_hue (cv2 : Cv2) :
  filter_transform cv2 "Hue Adjustment" =
    (do img <- the_processed_image;
     do hsv <- lift (cvtColor cv2 img COLOR_BGR2HSV);
     do hsv <- lift (hue_shift hsv);
     do bgr <- lift (cvtColor cv2 hsv COLOR_HSV2BGR);
     assign_processed_image bgr).
Proof. reflexivity. Qed.

(** One press of Hue Adjustment whose three steps succeed leaves the array
    converted back as the processed image, whether or not the refresh of
    the display succeeds afterwards. *)
Lemma apply_filter_hue_value (cv2 : Cv2) (s : ImageProcessingApp)
    (img hsv hsv' bgr : ndarray) :
  value_of s (processed_image s) = Some img →
  cvtColor cv2 img COLOR_BGR2HSV = Ok hsv →
  hue_shift hsv = Ok hsv' →
  cvtColor cv2 hsv' COLOR_HSV2BGR = Ok bgr →
  let s' := exec (apply_filter cv2 "Hue Adjustment") s in
  value_of s' (processed_image s') = Some bgr.
Proof.
  intros Hv H1 H2 H3.
  destruct s as [h o pr hist idx live c t dr lp bl br lbl pm dl].
  unfold value_of in *. cbn [processed_image heap] in Hv.
  destruct pr as [r|]; [| done]. cbn in Hv.
  unfold apply_filter. rewrite filter_transform_hue.
  unfold the_processed_image, assign_processed_image, update_image_display,
    add_to_history.
  step_monad. rewrite Hv. step_monad. rewrite H1. step_monad.
  rewrite H2. step_monad. rewrite H3. step_monad.
  rewrite lookup_app_r, Nat.sub_diag by lia.
  change ([bgr] !! 0%nat) with (Some bgr). step_monad.
  destruct (display_array cv2 bgr) as [shown|e]; step_monad.
  - rewrite lookup_app_r, Nat.sub_diag by lia.
    change ([bgr] !! 0%nat) with (Some bgr). step_monad. cbn.
    rewrite lookup_app_l by (rewrite length_app; simpl; lia).
    by rewrite lookup_app_r, Nat.sub_diag by lia.
  - cbn. by rewrite lookup_app_r, Nat.sub_diag by lia.
Qed.

(** As long as every conversion back to BGR is read back as the HSV array
    it was given, [n] presses leave an image whose HSV form is the HSV form
    of the first image shifted [n] times. *)
Lemma hue_adjustments_value (cv2 : Cv2) (hsv : ndarray) (N : nat) :
  shape_rest hsv = [3] →
  (∀ k hsv_k, (1 ≤ k ≤ N)%nat → hue_shift_n k hsv = Ok hsv_k →
     ∃ bgr, cvtColor cv2 hsv_k COLOR_HSV2BGR = Ok bgr ∧
            cvtColor cv2 bgr COLOR_BGR2HSV = Ok hsv_k) →
  ∀ n s img, (n ≤ N)%nat →
    value_of s (processed_image s) = Some img →
    cvtColor cv2 img COLOR_BGR2HSV = Ok hsv →
    ∃ bgr hsv_n,
      hue_shift_n n hsv = Ok hsv_n ∧
      value_of (run cv2 (hue_adjustments n) s)
        (processed_image (run cv2 (hue_adjustments n) s)) = Some bgr ∧
      cvtColor cv2 bgr COLOR_BGR2HSV = Ok hsv_n.
Proof.
  intros Hc Hback n. induction n as [|n IH]; intros s img Hn Hv H0.
  - exists img, hsv. done.
  - destruct (IH s img ltac:(lia) Hv H0) as (bgr & hsv_n & Hn1 & Hv1 & Hb1).
    set (hsv' := mk_ndarray (shape0 hsv) (shape1 hsv) [3]
                   (hue_bytes_map (Nat.iter (S n) hue_shift_byte) 3 (data hsv))).
    assert (Hok : hue_shift_n (S n) hsv = Ok hsv') by apply hue_shift_n_eq, Hc.
    assert (Hs : hue_shift hsv_n = Ok hsv').
    { rewrite <- Hok. unfold hue_shift_n in *. by rewrite Nat.iter_succ, Hn1. }
    destruct (Hback (S n) hsv' ltac:(lia) Hok) as (bgr' & Hto & Hfrom).
    exists bgr', hsv'. split; [done |]. split; [| done].
    unfold hue_adjustments. rewrite replicate_S_end, run_app. cbn [run foldl handle].
    fold (hue_adjustments n).
    by apply (apply_filter_hue_value cv2 _ bgr hsv_n hsv' bgr').
Qed.

(** C7, refuted as stated. With the library's 8-bit conversions, the
    one-pixel image of BGR colour (215, 238, 240) has hue 28; the six
    presses of Hue Adjustment read the hue as 59, 89, 120, 150, 0 and
    finally 30, because each conversion back to BGR rounds to bytes. *)
Lemma hue_six_presses_change_hue :
  let cv2 := OpenCV8u.cv2 in
  let img := mk_ndarray 1 1 [3] [215; 238; 240] in
  let s := exec (open_image cv2 "photo.png" (Some img)) (init (1200, 900)) in
  (λ n, hue_channel cv2 (run cv2 (hue_adjustments n) s)) <$> seq 0 7
    = [Some [28]; Some [59]; Some [89]; Some [120]; Some [150]; Some [0]; Some [30]] ∧
  hue_channel cv2 (run cv2 (hue_adjustments 6) s) ≠ hue_channel cv2 s ∧
  ¬ (∀ img', shape_rest img' = [3] →
       let s' := exec (open_image cv2 "photo.png" (Some img')) (init (1200, 900)) in
       hue_channel cv2 (run cv2 (hue_adjustments 6) s') = hue_channel cv2 s').
Proof.
  assert (H6 : hue_channel OpenCV8u.cv2
                 (run OpenCV8u.cv2 (hue_adjustments 6)
                    (exec (open_image OpenCV8u.cv2 "photo.png"
                             (Some (mk_ndarray 1 1 [3] [215; 238; 240])))
                       (init (1200, 900)))) = Some [30])
    by (vm_compute; reflexivity).
  assert (H0 : hue_channel OpenCV8u.cv2
                 (exec (open_image OpenCV8u.cv2 "photo.png"
                          (Some (mk_ndarray 1 1 [3] [215; 238; 240])))
                    (init (1200, 900))) = Some [28])
    by (vm_compute; reflexivity).
  cbv zeta. split; [vm_compute; reflexivity |]. split.
  - rewrite H6, H0. discriminate.
  - intros H. specialize (H (mk_ndarray 1 1 [3] [215; 238; 240]) eq_refl).
    cbv zeta in H. rewrite H6, H0 in H. discriminate.
Qed.

(** C7, amended. From any state with an image loaded, six presses of Hue
    Adjustment bring every value of the hue channel back, provided the hue
    bytes the library produced are below 180 and each of the six
    conversions back to BGR loses nothing, that is, converting its result
    to HSV again gives the shifted array. Nothing is asked of the refresh
    of the display. *)
Theorem hue_six_presses_lossless (cv2 : Cv2) (s : ImageProcessingApp)
    (img hsv : ndarray) :
  value_of s (processed_image s) = Some img →
  cvtColor cv2 img COLOR_BGR2HSV = Ok hsv →
  shape_rest hsv = [3] →
  (∀ i x, data hsv !! i = Some x → Z.of_nat i mod 3 = 0 → 0 ≤ x < 180) →
  (∀ k hsv_k, (1 ≤ k ≤ 6)%nat → hue_shift_n k hsv = Ok hsv_k →
     ∃ bgr, cvtColor cv2 hsv_k COLOR_HSV2BGR = Ok bgr ∧
            cvtColor cv2 bgr COLOR_BGR2HSV = Ok hsv_k) →
  let s' := run cv2 (hue_adjustments 6) s in
  hue_channel cv2 s = Some (channel0 (data hsv)) ∧
  hue_channel cv2 s' = Some (channel0 (data hsv)).
Proof.
  intros Hv H0 Hc Hrange Hback s'. split.
  - unfold hue_channel. by rewrite Hv, H0.
  - destruct (hue_adjustments_value cv2 hsv 6 Hc Hback 6 s img ltac:(lia) Hv H0)
      as (bgr & hsv6 & H6 & Hv6 & Hb6).
    rewrite (hue_shift_n_eq 6 hsv 3 Hc), (hue_bytes_six 3 _ Hrange) in H6.
    injection H6 as <-.
    subst s'. unfold hue_channel. rewrite Hv6, Hb6. cbn [data].
    done.
Qed.

Lemma hue_six_presses_lossless_witness :
  let cv2 := OpenCV8u.cv2 in
  let img := mk_ndarray 1 2 [3] [0; 0; 255; 10; 20; 30] in
  let s := exec (open_image cv2 "photo.png" (Some img)) (init (1200, 900)) in
  hue_channel cv2 s = Some [0; 15] ∧
  hue_channel cv2 (run cv2 (hue_adjustments 6) s) = Some [0; 15].
Proof.
  cbv zeta.
  apply (hue_six_presses_lossless OpenCV8u.cv2 _
           (mk_ndarray 1 2 [3] [0; 0; 255; 10; 20; 30])
           (mk_ndarray 1 2 [3] [0; 255; 255; 15; 170; 30])).
  - vm_compute. reflexivity.
  - vm_compute. reflexivity.
  - reflexivity.
  - intros i x Hx Hm. cbn [data] in Hx.
    do 6 (destruct i as [|i];
          [injection Hx as <-; first [lia | vm_compute in Hm; discriminate] |]).
    discriminate.
  - intros k hsv_k Hk Hs.
    assert (Hk' : k ∈ [1; 2; 3; 4; 5; 6]%nat).
    { do 7 (destruct k as [|k]; [first [lia | repeat constructor] |]). lia. }
    clear Hk.
    exists (match cvtColor OpenCV8u.cv2 hsv_k COLOR_HSV2BGR with
            | Ok bgr => bgr
            | Raise _ => hsv_k
            end).
    repeat (apply elem_of_cons in Hk' as [-> | Hk'];
            [vm_compute in Hs; injection Hs as <-; split; vm_compute; reflexivity |]).
    by apply elem_of_nil in Hk'.
Defined.

(** ** References: validity and separation *)

Lemma Forall_slice_to {A} (P : A → Prop) (l : list A) (k : Z) :
  Forall P l → Forall P (Py.slice_to l k).
Proof. intros H. unfold Py.slice_to. destruct (0 <=? k); by apply Forall_take. Qed.

Ltac lengths :=
  repeat first [rewrite length_app | rewrite length_insert]; cbn [length].

Ltac wf_solve :=
  repeat match goal with
    | |- _ ∧ _ => split
    | |- True => exact I
    | |- Forall _ (_ ++ _) => apply Forall_app; split
    | |- Forall _ [_] => apply Forall_singleton
    | |- Forall _ [] => apply Forall_nil_2
    | |- Forall _ (Py.slice_to _ _) => apply Forall_slice_to
    | H : Forall _ ?h |- Forall _ ?h =>
        solve [refine (Forall_impl _ _ _ H _); cbn beta; intros; lengths; lia]
    | |- _ ≠ _ =>
        solve [intros ?; simplify_eq;
               rewrite ?length_app, ?length_insert in *; cbn [length] in *; lia]
    | |- (_ < _)%nat => solve [lengths; lia]
    end.

(** Case analysis on a scrutinee that is not itself a case analysis. *)
Ltac plain_scrutinee x :=
  lazymatch x with
  | context [match _ with _ => _ end] => fail
  | _ => idtac
  end.

Ltac inner_case :=
  match goal with
  | |- context [match ?x with _ => _ end] => plain_scrutinee x; destruct x eqn:?
  end.

Ltac wf_run :=
  let Hs := fresh "Hs" in
  intros [] Hs; unfold well_formed in *; revert Hs; step_monad;
  repeat (inner_case; step_monad);
  intros; destruct_and?; wf_solve.

Lemma add_to_history_well_formed : preserves well_formed add_to_history.
Proof. unfold add_to_history. wf_run. Qed.

Ltac unfold_methods :=
  unfold handle, open_image, dropEvent, blur_slider_moved,
    brightness_slider_moved, reset_image, clear_drawing, undo, redo,
    start_live_preview, update_live_preview, resizeEvent, mouse_press_event,
    mouse_move_event, mouse_release_event, save_image;
  unfold load_image, apply_filter, stop_live_preview, get_image_rect,
    load_current_entry;
  unfold filter_transform;
  unfold the_processed_image, assign_processed_image, add_to_history,
    update_image_display.

Lemma apply_filter_well_formed (cv2 : Cv2) (filter_name : string) :
  preserves well_formed (apply_filter cv2 filter_name).
Proof. unfold_methods. wf_run. Qed.

Lemma slider_moved_well_formed (cv2 : Cv2)
    (f : ImageProcessingApp → ImageProcessingApp) (filter_name : string) :
  (∀ s, well_formed s → well_formed (f s)) →
  preserves well_formed (modify f >> apply_filter cv2 filter_name).
Proof.
  intros Hf. apply preserves_bind; [by apply preserves_modify |].
  intros _. apply apply_filter_well_formed.
Qed.

Lemma handle_well_formed (cv2 : Cv2) (e : event) :
  preserves well_formed (handle cv2 e).
Proof.
  destruct e; cbn [handle].
  1-2, 6-17: (unfold_methods; wf_run).
  - apply apply_filter_well_formed.
  - unfold blur_slider_moved.
    apply preserves_bind; [apply preserves_gets | intros old].
    destruct (_ =? _); [apply preserves_ret |].
    apply slider_moved_well_formed. by intros [].
  - unfold brightness_slider_moved.
    apply preserves_bind; [apply preserves_gets | intros old].
    destruct (_ =? _); [apply preserves_ret |].
    apply slider_moved_well_formed. by intros [].
Qed.

Lemma run_well_formed (cv2 : Cv2) (es : list event) (s : ImageProcessingApp) :
  well_formed s → well_formed (run cv2 es s).
Proof.
  revert s. induction es as [|e es IH]; intros s Hs; [done |].
  simpl. apply IH. by apply handle_well_formed.
Qed.

(** From the constructor on, no reference ever dangles, and the processed
    image never shares its array with the original or the history. *)
Lemma reachable_well_formed (cv2 : Cv2) (lbl : Z * Z) (es : list event) :
  well_formed (run cv2 es (init lbl)).
Proof.
  apply run_well_formed. split; [exact I |]. split; [exact I | apply Forall_nil_2].
Qed.

(** ** What a handler may overwrite *)

Ltac frame_solve :=
  repeat apply lookup_app_l_Some;
  try (rewrite list_lookup_insert_ne by congruence);
  done.

Ltac frame_run :=
  intros []; unfold keeps_original, frame; step_monad;
  repeat (inner_case; step_monad);
  repeat split; try done; intros; frame_solve.

Lemma apply_filter_keeps_original (cv2 : Cv2) (filter_name : string) (s : ImageProcessingApp) :
  keeps_original s (exec (apply_filter cv2 filter_name) s).
Proof. revert s. unfold_methods. frame_run. Qed.

Lemma handle_keeps_original (cv2 : Cv2) (e : event) (s : ImageProcessingApp) :
  is_load e = false → keeps_original s (exec (handle cv2 e) s).
Proof.
  intros He. destruct e; try discriminate He; clear He; cbn [handle].
  4-15: (revert s; unfold_methods; frame_run).
  - apply apply_filter_keeps_original.
  - unfold blur_slider_moved, exec, bind at 1, gets at 1.
    destruct (_ =? _); [split; [by intros ? ? ? ? | done] |].
    unfold bind at 1, modify at 1.
    apply (apply_filter_keeps_original cv2 "Gaussian Blur"
             (set_blur_slider s (clamp 1 15 v))).
  - unfold brightness_slider_moved, exec, bind at 1, gets at 1.
    destruct (_ =? _); [split; [by intros ? ? ? ? | done] |].
    unfold bind at 1, modify at 1.
    apply (apply_filter_keeps_original cv2 "Brightness/Contrast"
             (set_brightness_slider s (clamp (-100) 100 v))).
Qed.

Lemma handle_frame (cv2 : Cv2) (e : event) (s : ImageProcessingApp) :
  frame s (exec (handle cv2 e) s).
Proof.
  destruct (is_load e) eqn:He; [| by apply handle_keeps_original].
  destruct e; try discriminate He; clear He; cbn [handle]; revert s;
    unfold_methods; intros []; unfold frame; step_monad;
    repeat (inner_case; step_monad); intros; frame_solve.
Qed.

(** Stored snapshots are never written to: whatever the event, an entry of
    the history keeps its content. *)
Lemma history_entries_immutable
    (cv2 : Cv2) (e : event) (s : ImageProcessingApp) (r : ref) (a : ndarray) :
  well_formed s → r ∈ image_history s → heap s !! r = Some a →
  heap (exec (handle cv2 e) s) !! r = Some a.
Proof.
  intros (_ & Hp & _) Hin Hr. apply (handle_frame cv2 e s r a Hr).
  intros Heq. rewrite Heq in Hp. destruct Hp as (_ & _ & Hh).
  rewrite Forall_forall in Hh. by apply (Hh r).
Qed.

Lemma run_keeps_original (cv2 : Cv2) (es : list event)
    (s : ImageProcessingApp) (o : ref) (img : ndarray) :
  well_formed s → Forall (λ e, is_load e = false) es →
  original_image s = Some o → heap s !! o = Some img →
  original_image (run cv2 es s) = Some o ∧
  heap (run cv2 es s) !! o = Some img ∧
  well_formed (run cv2 es s).
Proof.
  revert s. induction es as [|e es IH]; intros s Hs Hes Ho Hr; [done |].
  apply Forall_cons in Hes as [He Hes]. simpl.
  destruct (handle_keeps_original cv2 e s He) as [Hf Hk].
  apply IH; [by apply handle_well_formed | done | congruence |].
  apply (Hf o img Hr). intros Hp.
  destruct Hs as (_ & Hs & _). rewrite Hp in Hs. by destruct Hs as (_ & ? & _).
Qed.

Lemma open_image_loads (cv2 : Cv2) (s : ImageProcessingApp)
    (file_name : string) (img : ndarray) :
  file_name ≠ "" →
  original_image (exec (open_image cv2 file_name (Some img)) s) = Some (length (heap s)) ∧
  heap (exec (open_image cv2 file_name (Some img)) s) !! length (heap s) = Some img.
Proof.
  intros Hf. apply String.eqb_neq in Hf.
  unfold open_image, load_image, update_image_display, add_to_history.
  rewrite Hf. destruct s. step_monad.
  rewrite lookup_app_r, Nat.sub_diag by lia.
  change ([img] !! 0%nat) with (Some img). step_monad.
  rewrite lookup_app_r by (rewrite length_app; simpl; lia).
  rewrite length_app. cbn [length].
  replace (length heap0 + 1 - (length heap0 + 1))%nat with 0%nat by lia.
  change ([img] !! 0%nat) with (Some img). step_monad.
  destruct (display_array cv2 img) as [shown|e]; step_monad.
  - rewrite lookup_app_r by (rewrite length_app; simpl; lia).
    rewrite length_app. cbn [length].
    replace (length heap0 + 1 - (length heap0 + 1))%nat with 0%nat by lia.
    change ([img] !! 0%nat) with (Some img). step_monad.
    split; [done |].
    do 2 apply lookup_app_l_Some. by rewrite lookup_app_r, Nat.sub_diag.
  - split; [done |].
    apply lookup_app_l_Some. by rewrite lookup_app_r, Nat.sub_diag.
Qed.

(** The original image is the image that was loaded, whatever filters,
    strokes, undos, redos, resets and camera frames came after the load,
    and Reset brings exactly that image back. *)
Theorem original_survives_edits (cv2 : Cv2) (s0 : ImageProcessingApp)
    (file_name : string) (img : ndarray) (es : list event) :
  well_formed s0 → file_name ≠ "" →
  Forall (λ e, is_load e = false) es →
  let s := run cv2 es (exec (open_image cv2 file_name (Some img)) s0) in
  let s' := exec (reset_image cv2) s in
  value_of s (original_image s) = Some img ∧
  value_of s' (processed_image s') = Some img ∧
  value_of s' (original_image s') = Some img.
Proof.
  intros Hs0 Hf Hes s s'.
  destruct (open_image_loads cv2 s0 file_name img Hf) as [Ho Hr].
  pose proof (handle_well_formed cv2 (EvOpen file_name (Some img)) s0 Hs0) as Hwf.
  cbn [handle] in Hwf.
  destruct (run_keeps_original cv2 es _ _ _ Hwf Hes Ho Hr) as (Ho' & Hr' & _).
  fold s in Ho', Hr'. subst s'. unfold exec.
  rewrite (reset_image_run cv2 s _ img Ho' Hr').
  unfold value_of at 1. rewrite Ho'. cbn [mbind option_bind].
  split; [done |].
  destruct (display_array cv2 img) as [shown|e]; cbn [snd];
    unfold value_of, restored, copied; cbn; rewrite Ho'; cbn.
  - split; [by rewrite lookup_app_r, Nat.sub_diag | by apply lookup_app_l_Some].
  - split; [by rewrite lookup_app_r, Nat.sub_diag | by apply lookup_app_l_Some].
Qed.

Lemma original_survives_edits_witness :
  let s := run tracing_cv2
             [EvFilter "Sharpen"; EvMousePress (10, 10); EvMouseMove (20, 20);
              EvMouseRelease; EvUndo]
             (exec (open_image tracing_cv2 "photo.png" (Some sample_image))
                (init (1200, 900))) in
  value_of s (original_image s) = Some sample_image ∧
  value_of (exec (reset_image tracing_cv2) s)
    (processed_image (exec (reset_image tracing_cv2) s)) = Some sample_image.
Proof.
  assert (Hwf : well_formed (init (1200, 900))).
  { split; [exact I |]. split; [exact I | apply Forall_nil_2]. }
  pose proof (original_survives_edits tracing_cv2 (init (1200, 900))
                "photo.png" sample_image
                [EvFilter "Sharpen"; EvMousePress (10, 10); EvMouseMove (20, 20);
                 EvMouseRelease; EvUndo]
                Hwf ltac:(discriminate)
                ltac:(repeat constructor)) as H.
  cbv zeta in H. destruct H as (H1 & H2 & _). split; [exact H1 | exact H2].
Defined.

(** ** Sliders stay in range *)

Lemma clamp_range (lo hi v : Z) : lo ≤ hi → lo ≤ clamp lo hi v ≤ hi.
Proof. unfold clamp. lia. Qed.

Lemma preserves_slider_neutral (f : ImageProcessingApp → ImageProcessingApp) :
  (∀ s, blur_slider (f s) = blur_slider s ∧
        brightness_slider (f s) = brightness_slider s) →
  preserves slider_range (modify f).
Proof.
  intros Hf. apply preserves_modify. intros s Hs.
  destruct (Hf s) as [Hb Hc]. unfold slider_range in *. by rewrite Hb, Hc.
Qed.

Ltac slider_range_auto :=
  repeat first
    [ apply preserves_ret | apply preserves_raise | apply preserves_lift
    | apply preserves_gets | apply preserves_deref
    | apply preserves_slider_neutral; intros ?; by split
    | apply preserves_bind; [| intros ?]
    | apply preserves_try_except; [| intros ?]
    | match goal with
      | |- preserves _ (match ?x with _ => _ end) => destruct x
      end ].

Lemma handle_slider_range (cv2 : Cv2) (e : event) :
  preserves slider_range (handle cv2 e).
Proof.
  destruct e; cbn [handle]; unfold_methods; slider_range_auto.
  - apply preserves_modify. intros s [_ Hs]. split; [| done].
    cbn. apply clamp_range. lia.
  - apply preserves_modify. intros s [Hs _]. split; [done |].
    cbn. apply clamp_range. lia.
Qed.

Lemma run_slider_range (cv2 : Cv2) (es : list event) (s : ImageProcessingApp) :
  slider_range s → slider_range (run cv2 es s).
Proof.
  revert s. induction es as [|e es IH]; intros s Hs; [done |].
  simpl. apply IH. by apply handle_slider_range.
Qed.

(** Whatever the user does, the blur slider stays between 1 and 15 and the
    brightness slider between -100 and 100, so the kernel size the
    application computes is always odd and at most 15. *)
Theorem reachable_slider_range (cv2 : Cv2) (lbl : Z * Z) (es : list event) :
  let s := run cv2 es (init lbl) in
  slider_range s ∧
  Z.odd (blur_kernel_size (blur_slider s)) = true ∧
  1 ≤ blur_kernel_size (blur_slider s) ≤ 15.
Proof.
  intros s.
  assert (Hs : slider_range s).
  { apply run_slider_range. split; cbn; lia. }
  split; [done |]. destruct Hs as [Hb _].
  rewrite blur_kernel_size_spec by lia.
  destruct (Z.odd (blur_slider s)) eqn:E; [split; [done | lia] |].
  split.
  - rewrite Z.add_1_r, Z.odd_succ, <- Z.negb_odd, E. done.
  - assert (blur_slider s ≠ 15) by (intros H; rewrite H in E; discriminate).
    lia.
Qed.

(** ** How the pointer handler can fail *)

(** In a state with valid references, an exception leaves
    [mouse_move_event] in one of three ways: the label shows no pixmap, so
    that [get_image_rect] answered [None]; [cv2.line] raised; or the
    segment was drawn and the refresh of the display raised. In the first
    two cases nothing has been changed; in the third the segment is in the
    processed image and [last_point] has not moved. *)
Lemma mouse_move_event_raises (cv2 : Cv2) (s s' : ImageProcessingApp)
    (p : Z * Z) (e : string) :
  well_formed s →
  mouse_move_event cv2 p s = (Raise e, s') →
  ∃ r img last,
    processed_image s = Some r ∧ heap s !! r = Some img ∧
    last_point s = Some last ∧
    ((pixmap s = None ∧ s' = s) ∨
     let seg := segment_endpoints
                  (Qt.mk_QRect 0 0 (label_size s).1 (label_size s).2) img last p in
     match line cv2 img seg.1 seg.2 drawing_color drawing_thickness with
     | Raise e' => e' = e ∧ s' = s
     | Ok drawn =>
         display_array cv2 drawn = Raise e ∧
         s' = set_heap s (<[r := drawn]> (heap s))
     end).
Proof.
  intros (_ & Hwf & _).
  destruct s as [h o pr hist idx live c t dr lp bl br [lw lh] pm dl].
  cbn [processed_image heap pixmap label_size last_point fst snd] in *.
  unfold mouse_move_event, get_image_rect, update_image_display. step_monad.
  destruct dr; [| done].
  destruct pr as [r|]; [| done].
  destruct Hwf as (Hlt & _).
  assert (Himg : is_Some (h !! r)) by (by apply lookup_lt_is_Some_2).
  destruct Himg as [img Himg].
  destruct lp as [last|]; step_monad; [| done].
  destruct pm as [pm|]; step_monad.
  2:{ intros [= <- <-]. exists r, img, last.
      split; [done |]. split; [done |]. split; [done |]. by left. }
  destruct (Qt.contains _ p); step_monad; [| done].
  rewrite Himg. step_monad.
  destruct (segment_endpoints _ img last p) as [start stop] eqn:Es.
  cbn [fst snd].
  destruct (line cv2 img start stop drawing_color drawing_thickness) as [d|e'] eqn:El;
    step_monad.
  - rewrite list_lookup_insert_eq by done. step_monad.
    destruct (display_array cv2 d) as [shown|e''] eqn:Ed; step_monad; [done |].
    intros [= <- <-]. exists r, img, last.
    split; [done |]. split; [done |]. split; [done |]. right.
    rewrite Es. cbv beta iota. by rewrite El.
  - intros [= <- <-]. exists r, img, last.
    split; [done |]. split; [done |]. split; [done |]. right.
    rewrite Es. cbv beta iota. by rewrite El.
Qed.

(** From the constructor on, whatever events came before, an exception
    leaving [mouse_move_event] is the one [cv2.line] raised on the processed
    image, with the object left as it was; or the one the conversion for
    display raised on the image with the segment drawn, with the segment
    left in the processed image and [last_point] not advanced; or it comes
    from a label that shows no pixmap, with the object left as it was. *)
Theorem mouse_move_event_failure_modes
    (cv2 : Cv2) (lbl p : Z * Z) (es : list event)
    (s' : ImageProcessingApp) (e : string) :
  let s := run cv2 es (init lbl) in
  mouse_move_event cv2 p s = (Raise e, s') →
  ∃ r img last,
    processed_image s = Some r ∧ heap s !! r = Some img ∧
    last_point s = Some last ∧
    ((pixmap s = None ∧ s' = s) ∨
     let seg := segment_endpoints
                  (Qt.mk_QRect 0 0 (label_size s).1 (label_size s).2) img last p in
     match line cv2 img seg.1 seg.2 drawing_color drawing_thickness with
     | Raise e' => e' = e ∧ s' = s
     | Ok drawn =>
         display_array cv2 drawn = Raise e ∧
         s' = set_heap s (<[r := drawn]> (heap s))
     end).
Proof.
  intros s. apply mouse_move_event_raises.
  apply run_well_formed. split; [exact I |]. split; [exact I | apply Forall_nil_2].
Qed.

Lemma mouse_move_event_failure_modes_witness :
  let cv2 := strict_display_cv2 in
  let s := run cv2 [EvOpen "photo.png" (Some square_image); EvMousePress (150, 0)]
             (init (1200, 900)) in
  let s' := set_heap s (<[1%nat := mk_ndarray 30 30 [3] [3; 0; 15; 15]]> (heap s)) in
  mouse_move_event cv2 (600, 450) s = (Raise "cv2.error: bad buffer", s') ∧
  ∃ r img last,
    processed_image s = Some r ∧ heap s !! r = Some img ∧
    last_point s = Some last ∧
    ((pixmap s = None ∧ s' = s) ∨
     let seg := segment_endpoints
                  (Qt.mk_QRect 0 0 (label_size s).1 (label_size s).2) img last
                  (600, 450) in
     match line cv2 img seg.1 seg.2 drawing_color drawing_thickness with
     | Raise e' => e' = "cv2.error: bad buffer" ∧ s' = s
     | Ok drawn =>
         display_array cv2 drawn = Raise "cv2.error: bad buffer" ∧
         s' = set_heap s (<[r := drawn]> (heap s))
     end).
Proof.
  intros cv2 s s'.
  assert (H : mouse_move_event cv2 (600, 450) s = (Raise "cv2.error: bad buffer", s'))
    by (vm_compute; reflexivity).
  split; [exact H |].
  exact (mouse_move_event_failure_modes cv2 (1200, 900) (600, 450)
           [EvOpen "photo.png" (Some square_image); EvMousePress (150, 0)]
           s' "cv2.error: bad buffer" H).
Defined.

(** ** Where a drawn segment ends *)

Lemma to_image_coordinate_bounds (p image_dim rect_dim : Z) :
  0 ≤ p ≤ rect_dim - 1 → 0 < image_dim →
  0 ≤ to_image_coordinate p 0 image_dim rect_dim < image_dim.
Proof.
  intros Hp Hd. unfold to_image_coordinate, Py.int_div.
  rewrite Z.sub_0_r, Z.quot_div_nonneg by lia. split.
  - apply Z.div_pos; lia.
  - apply Z.div_lt_upper_bound; nia.
Qed.

(** The point the pointer has reached is inside the label (the handler
    checks it), so the end of every segment handed to [cv2.line] is a pixel
    of the image. Nothing of the kind is checked for the segment's start. *)
Theorem segment_end_inside_image (s : ImageProcessingApp) (img : ndarray)
    (last current : Z * Z) :
  let img_rect := Qt.mk_QRect 0 0 (label_size s).1 (label_size s).2 in
  Qt.contains img_rect current = true →
  0 < shape1 img → 0 < shape0 img →
  let stop := (segment_endpoints img_rect img last current).2 in
  0 ≤ stop.1 < shape1 img ∧ 0 ≤ stop.2 < shape0 img.
Proof.
  intros img_rect Hc Hw Hh stop. subst stop img_rect.
  unfold Qt.contains in Hc. cbn [Qt.rx Qt.ry Qt.rwidth Qt.rheight] in Hc.
  repeat (apply andb_prop in Hc as [Hc ?]).
  repeat match goal with H : (_ <=? _) = true |- _ => apply Z.leb_le in H end.
  unfold segment_endpoints. cbn [fst snd Qt.rx Qt.ry Qt.rwidth Qt.rheight].
  split; apply to_image_coordinate_bounds; lia.
Qed.

Lemma segment_end_inside_image_witness :
  Qt.contains (Qt.mk_QRect 0 0 1200 900) (1199, 899) = true ∧
  (let stop := (segment_endpoints (Qt.mk_QRect 0 0 1200 900) square_image
                  (-50, 2000) (1199, 899)).2 in
   0 ≤ stop.1 < 30 ∧ 0 ≤ stop.2 < 30) ∧
  (segment_endpoints (Qt.mk_QRect 0 0 1200 900) square_image (-50, 2000) (1199, 899)).1
    = (-1, 66).
Proof.
  split; [reflexivity |]. split; [| reflexivity].
  exact (segment_end_inside_image (init (1200, 900)) square_image
           (-50, 2000) (1199, 899) eq_refl ltac:(cbn; lia) ltac:(cbn; lia)).
Defined.

(** ** An image with the label's aspect ratio *)

Lemma scaled_keep_aspect_same_ratio (w h tw th : Z) :
  0 < w → 0 < h → th * w = tw * h →
  Qt.scaled_keep_aspect (w, h) (tw, th) = (tw, th).
Proof.
  intros Hw Hh Hr. unfold Qt.scaled_keep_aspect.
  destruct (Z.eqb_spec w 0); [lia |]. destruct (Z.eqb_spec h 0); [lia |].
  cbn [orb]. rewrite Hr, Z.quot_mul by lia. by rewrite Z.leb_refl.
Qed.

(** When the image handed to the display has exactly the label's aspect
    ratio, the refreshed pixmap fills the label, and the rectangle
    [get_image_rect] answers with is the one the image is displayed in. *)
Theorem image_rect_right_for_same_ratio (cv2 : Cv2) (s : ImageProcessingApp)
    (r : ref) (img shown : ndarray) :
  processed_image s = Some r → heap s !! r = Some img →
  display_array cv2 img = Ok shown →
  0 < shape1 shown → 0 < shape0 shown →
  (label_size s).2 * shape1 shown = (label_size s).1 * shape0 shown →
  let s' := exec (update_image_display cv2) s in
  pixmap s' = Some (label_size s) ∧
  get_image_rect s' = (Ok (displayed_rect s'), s').
Proof.
  intros Hp Hr Hd Hw Hh Hratio.
  destruct s as [h o pr hist idx live c t dr lp bl br [lw lh] pm dl].
  cbn [processed_image heap label_size fst snd] in *. subst.
  unfold update_image_display, get_image_rect, displayed_rect. step_monad.
  rewrite Hr. step_monad. rewrite Hd. step_monad.
  rewrite scaled_keep_aspect_same_ratio by done.
  split; [done |]. unfold Qt.centered_rect. cbn. by rewrite !Z.sub_diag.
Qed.

Lemma image_rect_right_for_same_ratio_witness :
  let s := exec (resizeEvent echo_cv2 (900, 900))
             (exec (open_image echo_cv2 "photo.png" (Some square_image))
                (init (1200, 900))) in
  pixmap s = Some (900, 900) ∧
  get_image_rect s = (Ok (Some (Qt.mk_QRect 0 0 900 900)), s).
Proof.
  intros s.
  pose proof (image_rect_right_for_same_ratio echo_cv2 s 1%nat square_image
                square_image eq_refl eq_refl eq_refl
                ltac:(cbn; lia) ltac:(cbn; lia) eq_refl) as H.
  cbv zeta in H. destruct H as [H1 H2]. split; [exact H1 | exact H2].
Defined.

(** ** Strokes *)

(** A pointer move records nothing and replaces no array: it can only
    write into the processed image and move [last_point]. *)
Lemma mouse_move_event_keeps (cv2 : Cv2) (p : Z * Z) (s : ImageProcessingApp) :
  let s' := exec (mouse_move_event cv2 p) s in
  image_history s' = image_history s ∧
  current_history_index s' = current_history_index s ∧
  processed_image s' = processed_image s ∧
  original_image s' = original_image s ∧
  length (heap s') = length (heap s) ∧
  is_drawing s' = is_drawing s.
Proof.
  destruct s. unfold mouse_move_event, get_image_rect, update_image_display.
  step_monad. repeat (inner_case; step_monad);
    repeat split; try done; by rewrite length_insert.
Qed.

Lemma mouse_moves_keep (cv2 : Cv2) (pts : list (Z * Z)) (s : ImageProcessingApp) :
  let s' := run cv2 (EvMouseMove <$> pts) s in
  image_history s' = image_history s ∧
  current_history_index s' = current_history_index s ∧
  processed_image s' = processed_image s ∧
  original_image s' = original_image s ∧
  length (heap s') = length (heap s).
Proof.
  revert s. induction pts as [|p pts IH]; intros s; [done |].
  cbn [fmap list_fmap run foldl handle].
  destruct (mouse_move_event_keeps cv2 p s) as (H1 & H2 & H3 & H4 & H5 & _).
  destruct (IH (exec (mouse_move_event cv2 p) s)) as (I1 & I2 & I3 & I4 & I5).
  unfold run in *. repeat split; congruence.
Qed.

(** A whole stroke: press, any number of moves, release. Whatever is drawn
    and whether or not [cv2.line] or the refresh of the display fails on
    the way, the stroke adds exactly one history entry after the current
    one, and that entry holds the processed image as the stroke left it. *)
Theorem stroke_records_once (cv2 : Cv2) (s : ImageProcessingApp)
    (r : ref) (p : Z * Z) (pts : list (Z * Z)) :
  processed_image s = Some r →
  (r < length (heap s))%nat →
  let s' := run cv2 (stroke p pts) s in
  let c := length (heap s) in
  image_history s' =
    Py.slice_to (image_history s) (current_history_index s + 1) ++ [c] ∧
  current_history_index s' = Z.of_nat (length (image_history s')) - 1 ∧
  processed_image s' = Some r ∧
  is_Some (heap s' !! r) ∧ heap s' !! c = heap s' !! r ∧
  is_drawing s' = false ∧ last_point s' = None.
Proof.
  intros Hp Hlt s' c. subst s' c. unfold stroke.
  change (EvMousePress p :: (EvMouseMove <$> pts) ++ [EvMouseRelease])
    with ([EvMousePress p] ++ (EvMouseMove <$> pts) ++ [EvMouseRelease]).
  rewrite !run_app.
  set (s1 := run cv2 [EvMousePress p] s).
  assert (H1 : image_history s1 = image_history s ∧
               current_history_index s1 = current_history_index s ∧
               processed_image s1 = Some r ∧ heap s1 = heap s).
  { subst s1. destruct s; cbn in *; subst. done. }
  destruct H1 as (Hh1 & Hi1 & Hp1 & Hheap1).
  set (s2 := run cv2 (EvMouseMove <$> pts) s1).
  destruct (mouse_moves_keep cv2 pts s1) as (Hh2 & Hi2 & Hp2 & _ & Hl2).
  fold s2 in Hh2, Hi2, Hp2, Hl2.
  assert (Himg : is_Some (heap s2 !! r)).
  { apply lookup_lt_is_Some_2. rewrite Hl2, Hheap1. done. }
  destruct Himg as [img Himg].
  rewrite Hp1 in Hp2. rewrite Hh1 in Hh2. rewrite Hi1 in Hi2. rewrite Hheap1 in Hl2.
  clearbody s2. clear s1 Hh1 Hi1 Hp1 Hheap1.
  assert (Hrel : run cv2 [EvMouseRelease] s2
                 = exec add_to_history (set_last_point (set_is_drawing s2 false) None)).
  { unfold run. cbn [foldl handle]. unfold mouse_release_event.
    destruct s2; cbn in *; subst. step_monad. done. }
  rewrite Hrel. unfold exec.
  rewrite (add_to_history_eq _ r img) by (by destruct s2; cbn in *).
  destruct s2 as [h2 ? ? hist2 idx2 ? ? ? ? ? ? ? ? ? ?]. cbn in *. subst.
  rewrite Hl2.
  repeat split; try done.
  - exists img. by apply lookup_app_l_Some.
  - trans (Some img).
    + rewrite <- Hl2. by rewrite lookup_app_r, Nat.sub_diag.
    + symmetry. by apply lookup_app_l_Some.
Qed.

Lemma stroke_records_once_witness :
  processed_image opened_state = Some 1%nat ∧
  image_history (run tracing_cv2 (stroke (10, 10) [(20, 20); (30, 30)]) opened_state)
    = [2%nat; 3%nat].
Proof.
  split; [reflexivity |].
  exact (proj1 (stroke_records_once tracing_cv2 opened_state 1%nat (10, 10)
                  [(20, 20); (30, 30)] eq_refl ltac:(vm_compute; lia))).
Defined.

(** ** Undo and redo at any position *)

(** From any entry that has one below it, [undo] shows the entry below and
    [redo] then shows the entry it started from again: the index and the
    history are as before, and the processed image is that entry's
    snapshot, whatever unrecorded content it held before the undo. *)
Theorem redo_after_undo (cv2 : Cv2) (s : ImageProcessingApp) (imgs : list ndarray)
    (k : nat) (a b : ndarray) :
  holds s imgs (S k) → imgs !! k = Some a → imgs !! S k = Some b →
  let s1 := exec (undo cv2) s in
  let s2 := exec (redo cv2) s1 in
  value_of s1 (processed_image s1) = Some a ∧
  current_history_index s2 = current_history_index s ∧
  image_history s2 = image_history s ∧
  snapshots s2 = snapshots s ∧
  value_of s2 (processed_image s2) = Some b.
Proof.
  intros Hs Ha Hb s1 s2.
  destruct (undo_step cv2 s imgs k a Hs Ha) as (Hs1 & Hh1 & Hv1). fold s1 in Hs1, Hh1, Hv1.
  destruct (redo_step cv2 s1 imgs k b Hs1 Hb) as (Hs2 & Hh2 & Hv2). fold s2 in Hs2, Hh2, Hv2.
  destruct Hs as [Hsn Hi]. destruct Hs2 as [Hsn2 Hi2].
  repeat split; congruence.
Qed.

Lemma redo_after_undo_witness :
  holds (exec (redo echo_cv2) undone_state) [sample_image'; sample_image] 1 ∧
  value_of (exec (undo echo_cv2) (exec (redo echo_cv2) undone_state))
    (processed_image (exec (undo echo_cv2) (exec (redo echo_cv2) undone_state))) = Some sample_image' ∧
  value_of (exec (redo echo_cv2) (exec (undo echo_cv2) (exec (redo echo_cv2) undone_state)))
    (processed_image (exec (redo echo_cv2) (exec (undo echo_cv2) (exec (redo echo_cv2) undone_state)))) = Some sample_image.
Proof.
  assert (H : holds (exec (redo echo_cv2) undone_state) [sample_image'; sample_image] 1)
    by (split; vm_compute; reflexivity).
  split; [exact H |].
  destruct (redo_after_undo echo_cv2 (exec (redo echo_cv2) undone_state) [sample_image'; sample_image]
              0 sample_image' sample_image H eq_refl eq_refl)
    as (H1 & _ & _ & _ & H2).
  split; [exact H1 | exact H2].
Defined.

(** ** Opening images *)

Lemma load_image_eq (cv2 : Cv2) (s : ImageProcessingApp) (img shown : ndarray) :
  display_array cv2 img = Ok shown →
  load_image cv2 (Some img) s =
    (Ok tt,
     restored (set_original_image (set_heap s (heap s ++ [img]))
                 (Some (length (heap s)))) img shown).
Proof.
  intros Hd.
  set (s1 := set_original_image (set_heap s (heap s ++ [img])) (Some (length (heap s)))).
  change (load_image cv2 (Some img) s) with (reset_image cv2 s1).
  apply (reset_image_eq cv2 s1 (length (heap s)) img shown); [done | | done].
  subst s1. cbn. by rewrite lookup_app_r, Nat.sub_diag.
Qed.

Lemma open_image_eq (cv2 : Cv2) (s : ImageProcessingApp) (file_name : string)
    (img shown : ndarray) :
  file_name ≠ "" →
  display_array cv2 img = Ok shown →
  open_image cv2 file_name (Some img) s =
    (Ok tt,
     restored (set_original_image (set_heap s (heap s ++ [img]))
                 (Some (length (heap s)))) img shown).
Proof.
  intros Hf Hd. apply String.eqb_neq in Hf.
  unfold open_image, try_except. rewrite Hf.
  by rewrite (load_image_eq cv2 s img shown Hd).
Qed.

Lemma restored_holds (s : ImageProcessingApp) (imgs : list ndarray)
    (k : nat) (img shown : ndarray) :
  snapshots s = Some <$> imgs →
  current_history_index s = Z.of_nat k → (k < length imgs)%nat →
  holds (restored s img shown) (take (S k) imgs ++ [img]) (S k) ∧
  value_of (restored s img shown) (processed_image (restored s img shown)) = Some img.
Proof.
  intros Hs Hi Hk. pose proof (snapshots_length _ _ Hs) as Hlen.
  unfold holds, snapshots, value_of, restored in *. cbn.
  rewrite Hi, slice_to_take by lia.
  replace (Z.to_nat (Z.of_nat k + 1)) with (S k) by lia.
  repeat split.
  - rewrite !fmap_app, !fmap_take. f_equal.
    + f_equal. by apply lookup_fmap_grow.
    + cbn. rewrite lookup_app_r by lia.
      replace (S (length (heap s)) - length (heap s))%nat with 1%nat by lia. done.
  - rewrite length_app, length_take. cbn [length]. lia.
  - by rewrite lookup_app_r, Nat.sub_diag.
Qed.

(** A file that cannot be decoded: the error is shown, the processed image
    and the history stay, but the original is gone, so Reset can no longer
    bring anything back. *)
Theorem open_image_failure_drops_original
    (cv2 : Cv2) (s : ImageProcessingApp) (file_name : string) :
  file_name ≠ "" →
  let s' := exec (open_image cv2 file_name None) s in
  open_image cv2 file_name None s = (Ok tt, s') ∧
  s' = set_dialogs (set_original_image s None)
         (dialogs s ++ [Critical "Error" "Failed to open image: Failed to load image"]) ∧
  processed_image s' = processed_image s ∧
  image_history s' = image_history s ∧
  reset_image cv2 s' =
    (Ok tt, set_dialogs s' (dialogs s' ++ [Warning "Warning" "No image to reset!"])).
Proof.
  intros Hf. apply String.eqb_neq in Hf.
  unfold exec, open_image, try_except, load_image. rewrite Hf.
  destruct s. step_monad. done.
Qed.

Lemma open_image_failure_drops_original_witness :
  original_image opened_state = Some 0%nat ∧
  original_image (exec (open_image echo_cv2 "broken.png" None) opened_state) = None ∧
  processed_image (exec (open_image echo_cv2 "broken.png" None) opened_state)
    = Some 1%nat.
Proof.
  destruct (open_image_failure_drops_original echo_cv2 opened_state "broken.png"
              ltac:(discriminate)) as (_ & Hs & Hp & _).
  split; [reflexivity |]. split; [by rewrite Hs | exact Hp].
Defined.

(** Opening an image that can be displayed does not start a new history:
    the snapshots up to the current one stay, the new image is recorded
    after them, and Undo then shows the last snapshot of the previous image
    while the original (what Reset restores) is already the new one. *)
Theorem open_image_keeps_history (cv2 : Cv2) (s : ImageProcessingApp)
    (imgs : list ndarray) (k : nat) (a b shown : ndarray) (file_name : string) :
  holds s imgs k → imgs !! k = Some a → file_name ≠ "" →
  display_array cv2 b = Ok shown →
  let s1 := exec (open_image cv2 file_name (Some b)) s in
  let s2 := exec (undo cv2) s1 in
  holds s1 (take (S k) imgs ++ [b]) (S k) ∧
  value_of s1 (processed_image s1) = Some b ∧
  value_of s1 (original_image s1) = Some b ∧
  value_of s2 (processed_image s2) = Some a ∧
  value_of s2 (original_image s2) = Some b.
Proof.
  intros [Hs Hi] Ha Hf Hd s1 s2.
  pose proof (lookup_lt_Some _ _ _ Ha) as Hk.
  set (s0 := set_original_image (set_heap s (heap s ++ [b])) (Some (length (heap s)))).
  assert (Hs1 : s1 = restored s0 b shown).
  { subst s1. unfold exec. by rewrite (open_image_eq cv2 s file_name b shown). }
  assert (Hs0 : snapshots s0 = Some <$> imgs).
  { unfold snapshots in *. subst s0. cbn. by apply lookup_fmap_grow. }
  destruct (restored_holds s0 imgs k b shown Hs0 Hi Hk) as [Hh Hv].
  rewrite <- Hs1 in Hh, Hv.
  assert (Ho1 : original_image s1 = Some (length (heap s)) ∧
                heap s1 !! length (heap s) = Some b).
  { rewrite Hs1. unfold restored. subst s0. cbn. split; [done |].
    rewrite <- (assoc_L (++)). by rewrite lookup_app_r, Nat.sub_diag. }
  destruct Ho1 as [Ho1 Hb1].
  assert (Ha' : (take (S k) imgs ++ [b]) !! k = Some a).
  { rewrite lookup_app_l by (rewrite length_take; lia).
    rewrite lookup_take_lt by lia. done. }
  destruct Hh as [Hsn Hidx].
  destruct (snapshots_lookup s1 _ k a Hsn Ha') as (r & Hr & Hra).
  assert (Hs2 : s2 = after_display cv2 (loaded_entry s1 k a) a).
  { subst s2. by rewrite (undo_exec cv2 s1 k r a Hidx Hr Hra). }
  destruct (loaded_entry_holds cv2 s1 _ k a Hsn) as (_ & _ & Hv2 & Ho2 & Hh2).
  rewrite <- Hs2 in Hv2, Ho2, Hh2.
  repeat split; try done.
  - unfold value_of. by rewrite Ho1.
  - unfold value_of. rewrite Ho2, Ho1, Hh2. cbn.
    by apply lookup_app_l_Some.
Qed.

Lemma open_image_keeps_history_witness :
  holds opened_state [sample_image] 0 ∧
  let s1 := exec (open_image echo_cv2 "other.png" (Some sample_image')) opened_state in
  value_of (exec (undo echo_cv2) s1) (processed_image (exec (undo echo_cv2) s1))
    = Some sample_image ∧
  value_of (exec (reset_image echo_cv2) (exec (undo echo_cv2) s1))
    (processed_image (exec (reset_image echo_cv2) (exec (undo echo_cv2) s1)))
    = Some sample_image'.
Proof.
  assert (H : holds opened_state [sample_image] 0) by (split; vm_compute; reflexivity).
  split; [exact H |]. intros s1.
  destruct (open_image_keeps_history echo_cv2 opened_state [sample_image] 0
              sample_image sample_image' sample_image' "other.png"
              H eq_refl ltac:(discriminate) eq_refl)
    as (_ & _ & _ & Hu & _).
  split; [exact Hu | vm_compute; reflexivity].
Defined.

(** ** What a filter application leaves behind *)

Ltac fresh_lookup H :=
  rewrite lookup_app_r in H by (rewrite ?length_app; cbn [length]; lia);
  rewrite Nat.sub_diag in H; simpl in H; simplify_eq.

Ltac stored_lookup :=
  repeat first
    [ done
    | by rewrite lookup_app_r, Nat.sub_diag by (rewrite ?length_app; cbn [length]; lia)
    | apply lookup_app_l_Some ].

(** A filter application ends in one of two ways. Either nothing is
    reported and exactly one snapshot is recorded after the current one,
    holding what the processed image now is; or an error is reported and
    the history and its index are as before. *)
Theorem apply_filter_records_or_reports (cv2 : Cv2) (filter_name : string)
    (s : ImageProcessingApp) (r : ref) (img : ndarray) :
  processed_image s = Some r → heap s !! r = Some img →
  let s' := exec (apply_filter cv2 filter_name) s in
  (dialogs s' = dialogs s ∧
   ∃ c out,
     image_history s' =
       Py.slice_to (image_history s) (current_history_index s + 1) ++ [c] ∧
     current_history_index s' = Z.of_nat (length (image_history s')) - 1 ∧
     value_of s' (processed_image s') = Some out ∧
     heap s' !! c = Some out) ∨
  (∃ e, dialogs s' =
          dialogs s ++ [Critical "Error" ("Failed to apply filter: " +:+ e)] ∧
        image_history s' = image_history s ∧
        current_history_index s' = current_history_index s).
Proof.
  intros Hp Hr. destruct s as [h o pr hist idx live c t dr lp bl br lbl pm dl].
  simpl in Hp, Hr. subst.
  unfold_methods. step_monad.
  repeat (first [rewrite Hr | inner_case];
          try match goal with
              | H : (_ ++ _) !! _ = _ |- _ => fresh_lookup H
              end;
          step_monad);
    first
      [ right; eexists; repeat split; done
      | left; split; [done |]; eexists _, _; unfold value_of; cbn;
        repeat split; stored_lookup ].
Qed.

Lemma apply_filter_records_or_reports_witness :
  processed_image opened_state = Some 1%nat ∧
  let s' := exec (apply_filter echo_cv2 "Sharpen") opened_state in
  dialogs s' = [] ∧ image_history s' = [2%nat; 4%nat].
Proof.
  split; [reflexivity |]. intros s'.
  destruct (apply_filter_records_or_reports echo_cv2 "Sharpen" opened_state
              1%nat sample_image eq_refl eq_refl) as [(Hd & _) | (e & Hd & _)].
  - fold s' in Hd. split; [exact Hd | vm_compute; reflexivity].
  - exfalso. vm_compute in Hd. discriminate Hd.
Defined.

(** A name that is none of the six filters is not rejected: nothing is
    transformed, and the processed image stays the array it was. When the
    conversion for display succeeds, nothing is reported and the unchanged
    image is recorded as one more snapshot; when it raises, the error is
    reported and nothing is recorded. *)
Theorem apply_filter_unknown_name (cv2 : Cv2) (filter_name : string)
    (s : ImageProcessingApp) (r : ref) (img : ndarray) :
  filter_name ∉ filters →
  processed_image s = Some r → heap s !! r = Some img →
  let s' := exec (apply_filter cv2 filter_name) s in
  processed_image s' = Some r ∧
  match display_array cv2 img with
  | Ok _ =>
      dialogs s' = dialogs s ∧
      heap s' = heap s ++ [img] ∧
      image_history s' =
        Py.slice_to (image_history s) (current_history_index s + 1)
          ++ [length (heap s)] ∧
      current_history_index s' = Z.of_nat (length (image_history s')) - 1
  | Raise e =>
      dialogs s' =
        dialogs s ++ [Critical "Error" ("Failed to apply filter: " +:+ e)] ∧
      heap s' = heap s ∧
      image_history s' = image_history s ∧
      current_history_index s' = current_history_index s
  end.
Proof.
  intros Hn Hp Hr.
  assert (Hne : ∀ name, name ∈ filters → String.eqb filter_name name = false).
  { intros name Hin. apply String.eqb_neq. by intros ->. }
  destruct s as [h o pr hist idx live c t dr lp bl br lbl pm dl].
  simpl in Hp, Hr. subst.
  unfold apply_filter, filter_transform, update_image_display, add_to_history.
  rewrite !Hne by (unfold filters; repeat constructor).
  step_monad. rewrite Hr. step_monad.
  destruct (display_array cv2 img) as [shown|e]; step_monad; [| done].
  rewrite Hr. step_monad. done.
Qed.

Lemma apply_filter_unknown_name_witness :
  ("Invert" ∉ filters) ∧
  image_history (exec (apply_filter echo_cv2 "Invert") opened_state) = [2%nat; 3%nat] ∧
  heap (exec (apply_filter echo_cv2 "Invert") opened_state)
    = [sample_image; sample_image; sample_image; sample_image].
Proof.
  assert (Hn : "Invert" ∉ filters).
  { unfold filters. intros H. repeat (apply elem_of_cons in H as [H|H]; [discriminate H |]).
    by apply elem_of_nil in H. }
  split; [exact Hn |].
  destruct (apply_filter_unknown_name echo_cv2 "Invert" opened_state 1%nat sample_image
              Hn eq_refl eq_refl) as (_ & _ & Hh & Hi & _).
  split; [exact Hi | exact Hh].
Defined.

(** ** Slider moves compound *)

Lemma filter_transform_brightness (cv2 : Cv2) :
  filter_transform cv2 "Brightness/Contrast" =
    (do brightness <- gets brightness_slider;
     do img <- the_processed_image;
     do out <- lift (convertScaleAbs cv2 img 1 brightness);
     assign_processed_image out).
Proof. reflexivity. Qed.

(** The state a successful filter leaves when the refresh of the display
    raises: the result is the processed image, the error is reported and
    nothing is recorded. *)
Lemma apply_filter_brightness_run (cv2 : Cv2) (s : ImageProcessingApp)
    (r : ref) (img out : ndarray) :
  processed_image s = Some r → heap s !! r = Some img →
  convertScaleAbs cv2 img 1 (brightness_slider s) = Ok out →
  apply_filter cv2 "Brightness/Contrast" s =
    (Ok tt,
     match display_array cv2 out with
     | Ok shown => restored s out shown
     | Raise e =>
         set_dialogs (copied s out)
           (dialogs s ++ [Critical "Error" ("Failed to apply filter: " +:+ e)])
     end).
Proof.
  intros Hp Hr Hc. unfold apply_filter. rewrite filter_transform_brightness.
  destruct s as [h o pr hist idx live c t dr lp bl br lbl pm dl].
  simpl in Hp, Hr, Hc. subst.
  unfold the_processed_image, assign_processed_image, update_image_display,
    add_to_history, restored, copied.
  step_monad. rewrite Hr. step_monad. rewrite Hc. step_monad.
  rewrite lookup_app_r, Nat.sub_diag by lia.
  change ([out] !! 0%nat) with (Some out). step_monad.
  destruct (display_array cv2 out) as [shown|e]; step_monad; [| done].
  rewrite lookup_app_r, Nat.sub_diag by lia.
  change ([out] !! 0%nat) with (Some out). step_monad.
  rewrite <- !(assoc_L (++)), !length_app, Nat.add_1_r. done.
Qed.

Lemma brightness_slider_moved_run (cv2 : Cv2) (s : ImageProcessingApp)
    (r : ref) (img out : ndarray) (v : Z) :
  processed_image s = Some r → heap s !! r = Some img →
  -100 ≤ v ≤ 100 → v ≠ brightness_slider s →
  convertScaleAbs cv2 img 1 v = Ok out →
  let s0 := set_brightness_slider s v in
  brightness_slider_moved cv2 v s =
    (Ok tt,
     match display_array cv2 out with
     | Ok shown => restored s0 out shown
     | Raise e =>
         set_dialogs (copied s0 out)
           (dialogs s0 ++ [Critical "Error" ("Failed to apply filter: " +:+ e)])
     end).
Proof.
  intros Hp Hr Hv Hne Hc s0. unfold brightness_slider_moved, bind at 1, gets at 1.
  replace (clamp (-100) 100 v) with v by (unfold clamp; lia).
  destruct (Z.eqb_spec v (brightness_slider s)); [done |].
  unfold bind at 1, modify at 1.
  by apply (apply_filter_brightness_run cv2 _ r img out).
Qed.

(** After a slider move whose filter succeeded, the result is the
    processed image, at the first free position of the store, and the
    slider shows the new value, whatever the refresh of the display did. *)
Lemma brightness_slider_moved_value (cv2 : Cv2) (s : ImageProcessingApp)
    (r : ref) (img out : ndarray) (v : Z) :
  processed_image s = Some r → heap s !! r = Some img →
  -100 ≤ v ≤ 100 → v ≠ brightness_slider s →
  convertScaleAbs cv2 img 1 v = Ok out →
  let s' := exec (brightness_slider_moved cv2 v) s in
  processed_image s' = Some (length (heap s)) ∧
  heap s' !! length (heap s) = Some out ∧
  brightness_slider s' = v.
Proof.
  intros Hp Hr Hv Hne Hc s'. subst s'. unfold exec.
  rewrite (brightness_slider_moved_run cv2 s r img out v) by done. cbn [snd].
  destruct (display_array cv2 out) as [shown|e]; unfold restored, copied; cbn.
  - split; [done |]. split; [| done]. by rewrite lookup_app_r, Nat.sub_diag.
  - split; [done |]. split; [| done]. by rewrite lookup_app_r, Nat.sub_diag.
Qed.

(** The brightness slider does not set a brightness, it adds one: each
    move runs the filter on the processed image as the previous move left
    it, so after moving to [v1] and then to [v2] the image is the original
    shifted by [v1] and then by [v2]; and when both results can be
    displayed, both are in the history. *)
Theorem brightness_moves_compound (cv2 : Cv2) (s : ImageProcessingApp)
    (r : ref) (img out1 out2 : ndarray) (v1 v2 : Z) :
  processed_image s = Some r → heap s !! r = Some img →
  -100 ≤ v1 ≤ 100 → -100 ≤ v2 ≤ 100 →
  v1 ≠ brightness_slider s → v2 ≠ v1 →
  convertScaleAbs cv2 img 1 v1 = Ok out1 →
  convertScaleAbs cv2 out1 1 v2 = Ok out2 →
  let s1 := exec (brightness_slider_moved cv2 v1) s in
  let s2 := exec (brightness_slider_moved cv2 v2) s1 in
  value_of s1 (processed_image s1) = Some out1 ∧
  value_of s2 (processed_image s2) = Some out2 ∧
  (∀ shown1 shown2,
     display_array cv2 out1 = Ok shown1 → display_array cv2 out2 = Ok shown2 →
     ∃ c1 c2,
       image_history s2 =
         Py.slice_to (image_history s) (current_history_index s + 1) ++ [c1; c2] ∧
       heap s2 !! c1 = Some out1 ∧ heap s2 !! c2 = Some out2).
Proof.
  intros Hp Hr Hv1 Hv2 Hn1 Hn2 Hc1 Hc2 s1 s2.
  destruct (brightness_slider_moved_value cv2 s r img out1 v1) as (Hp1 & Hr1 & Hb1);
    try done.
  fold s1 in Hp1, Hr1, Hb1.
  assert (Hn2' : v2 ≠ brightness_slider s1) by (by rewrite Hb1).
  destruct (brightness_slider_moved_value cv2 s1 _ out1 out2 v2 Hp1 Hr1 Hv2 Hn2' Hc2)
    as (Hp2 & Hr2 & _).
  fold s2 in Hp2, Hr2.
  split; [unfold value_of; by rewrite Hp1 |].
  split; [unfold value_of; by rewrite Hp2 |].
  intros shown1 shown2 Hd1 Hd2.
  assert (Hs1 : s1 = restored (set_brightness_slider s v1) out1 shown1).
  { subst s1. unfold exec.
    rewrite (brightness_slider_moved_run cv2 s r img out1 v1) by done.
    by rewrite Hd1. }
  assert (Hs2 : s2 = restored (set_brightness_slider s1 v2) out2 shown2).
  { subst s2. unfold exec.
    rewrite (brightness_slider_moved_run cv2 s1 _ out1 out2 v2 Hp1 Hr1 Hv2 Hn2' Hc2).
    by rewrite Hd2. }
  rewrite Hs2, Hs1. unfold restored. cbn.
  set (h1 := Py.slice_to (image_history s) (current_history_index s + 1)).
  assert (Hlen : Z.of_nat (length (h1 ++ [S (length (heap s))])) - 1 + 1
                 = Z.of_nat (length (h1 ++ [S (length (heap s))]))) by lia.
  rewrite Hlen, slice_to_take, Nat2Z.id, take_ge by lia.
  eexists _, _. split; [by rewrite <- (assoc_L (++)) |]. split.
  - apply lookup_app_l_Some. rewrite lookup_app_r by lia.
    by replace (S (length (heap s)) - length (heap s))%nat with 1%nat by lia.
  - rewrite lookup_app_r by lia.
    by replace (S (length (heap s ++ [out1; out1]))
                - length (heap s ++ [out1; out1]))%nat with 1%nat by lia.
Qed.

Lemma brightness_moves_compound_witness :
  let s2 := exec (brightness_slider_moved offset_cv2 20)
              (exec (brightness_slider_moved offset_cv2 10) opened_state) in
  10 ≠ brightness_slider opened_state ∧
  data <$> value_of s2 (processed_image s2) = Some [40; 50; 60; 70; 80; 90].
Proof.
  intros s2.
  destruct (brightness_moves_compound offset_cv2 opened_state 1%nat sample_image
              (mk_ndarray 1 2 [3] [20; 30; 40; 50; 60; 70])
              (mk_ndarray 1 2 [3] [40; 50; 60; 70; 80; 90]) 10 20
              eq_refl eq_refl ltac:(lia) ltac:(lia)
              ltac:(discriminate) ltac:(discriminate) eq_refl eq_refl)
    as (_ & H2 & _).
  split; [discriminate |]. fold s2 in H2. by rewrite H2.
Defined.

(** ** Live preview *)

(** A camera that does not open leaves the loop inactive: the error is
    shown, the capture object is released, and every later tick changes
    nothing. The same holds after [stop_live_preview]. *)
Theorem live_preview_inactive_ignores_ticks
    (cv2 : Cv2) (s : ImageProcessingApp) (frame : option ndarray) :
  let s1 := exec (start_live_preview false) s in
  let s2 := exec stop_live_preview s in
  is_live_preview s1 = false ∧ cap s1 = Some false ∧
  dialogs s1 = dialogs s ++
    [Critical "Error" "Failed to start live preview: Failed to open camera"] ∧
  processed_image s1 = processed_image s ∧
  image_history s1 = image_history s ∧
  update_live_preview cv2 frame s1 = (Ok tt, s1) ∧
  update_live_preview cv2 frame s2 = (Ok tt, s2).
Proof.
  destruct s as [h o pr hist idx live c t dr lp bl br lbl pm dl].
  unfold start_live_preview, stop_live_preview, update_live_preview.
  step_monad. destruct t, c; step_monad; done.
Qed.

(** A frame of the running preview replaces the processed image and is not
    recorded: history, index and original are as before, whether or not
    the frame can be displayed, and the tick returns normally when it can.
    With no image ever opened, filters then work on the frame while Reset
    still has nothing to restore. *)
Theorem live_frame_is_not_recorded (cv2 : Cv2) (s : ImageProcessingApp)
    (a : ndarray) (opened : bool) :
  is_live_preview s = true → cap s = Some opened →
  let s' := exec (update_live_preview cv2 (Some a)) s in
  (∀ shown, display_array cv2 a = Ok shown →
     update_live_preview cv2 (Some a) s = (Ok tt, s')) ∧
  value_of s' (processed_image s') = Some a ∧
  image_history s' = image_history s ∧
  current_history_index s' = current_history_index s ∧
  original_image s' = original_image s ∧
  (original_image s = None →
   reset_image cv2 s' =
     (Ok tt, set_dialogs s' (dialogs s' ++ [Warning "Warning" "No image to reset!"]))).
Proof.
  intros Hl Hc.
  destruct s as [h o pr hist idx live c t dr lp bl br lbl pm dl].
  simpl in Hl, Hc. subst.
  unfold update_live_preview, assign_processed_image, update_image_display,
    reset_image, value_of.
  step_monad. rewrite lookup_app_r, Nat.sub_diag by lia.
  change ([a] !! 0%nat) with (Some a). step_monad.
  destruct (display_array cv2 a) as [shown|e]; step_monad; cbn;
    rewrite lookup_app_r, Nat.sub_diag by lia;
    repeat split; try done; by intros ->.
Qed.

Lemma live_frame_is_not_recorded_witness :
  let s := exec (start_live_preview true) (init (1200, 900)) in
  is_live_preview s = true ∧
  value_of (exec (update_live_preview echo_cv2 (Some sample_image)) s)
    (processed_image (exec (update_live_preview echo_cv2 (Some sample_image)) s))
    = Some sample_image ∧
  image_history (exec (update_live_preview echo_cv2 (Some sample_image)) s) = [].
Proof.
  intros s.
  destruct (live_frame_is_not_recorded echo_cv2 s sample_image true eq_refl eq_refl)
    as (_ & Hv & Hh & _).
  split; [reflexivity |]. split; [exact Hv | exact Hh].
Defined.

(** ** Theme *)

Lemma toggle_theme_light : toggle_theme "" = dark_style_sheet.
Proof. reflexivity. Qed.

Lemma toggle_theme_dark : toggle_theme dark_style_sheet = "".
Proof. vm_compute. reflexivity. Qed.

(** From the light theme the constructor sets, [n] toggles give the dark
    style sheet when [n] is odd and the empty one when [n] is even: a toggle
    always undoes the previous one. *)
Theorem toggle_theme_alternates (n : nat) :
  Nat.iter n toggle_theme (set_theme "light") =
    if Nat.even n then "" else dark_style_sheet.
Proof.
  induction n as [|n IH]; [reflexivity |].
  rewrite Nat.iter_succ, IH, Nat.even_succ, <- Nat.negb_even.
  destruct (Nat.even n); cbn [negb].
  - apply toggle_theme_light.
  - apply toggle_theme_dark.
Qed.

(** ** Witnesses for the lemmas on stored arrays, failing filters and hue *)

Lemma history_entries_immutable_witness :
  let s := run tracing_cv2 [EvMousePress (10, 10)] opened_state in
  (2%nat ∈ image_history s) ∧
  heap (exec (handle tracing_cv2 (EvMouseMove (20, 20))) s) !! 2%nat = Some sample_image ∧
  data <$> heap (exec (handle tracing_cv2 (EvMouseMove (20, 20))) s) !! 1%nat
    = Some [0; 0; 0; 0].
Proof.
  intros s.
  assert (Hwf : well_formed s).
  { subst s. apply run_well_formed. vm_compute.
    repeat split; try lia; try discriminate; repeat constructor; lia. }
  assert (Hin : 2%nat ∈ image_history s) by (vm_compute; constructor).
  split; [exact Hin |]. split; [| vm_compute; reflexivity].
  exact (history_entries_immutable tracing_cv2 (EvMouseMove (20, 20)) s 2%nat
           sample_image Hwf Hin eq_refl).
Defined.

Lemma apply_filter_failure_unchanged_witness :
  processed_image opened_state ≠ None ∧
  exec (apply_filter gray2bgr_failing_cv2 "Edge Detection") opened_state =
    set_dialogs opened_state
      [Critical "Error" "Failed to apply filter: cv2.error: Insufficient memory"].
Proof.
  split; [discriminate |].
  pose proof (apply_filter_failure_unchanged gray2bgr_failing_cv2 "Edge Detection"
                opened_state opened_state "cv2.error: Insufficient memory"
                ltac:(discriminate) ltac:(vm_compute; reflexivity)
                ltac:(discriminate)) as H.
  unfold exec. rewrite H. reflexivity.
Defined.

Lemma hue_shift_six_witness :
  hue_shift_n 1 (mk_ndarray 1 2 [3] [170; 20; 30; 5; 50; 60])
    = Ok (mk_ndarray 1 2 [3] [20; 20; 30; 35; 50; 60]) ∧
  hue_shift_n 6 (mk_ndarray 1 2 [3] [170; 20; 30; 5; 50; 60])
    = Ok (mk_ndarray 1 2 [3] [170; 20; 30; 5; 50; 60]).
Proof.
  split; [reflexivity |].
  apply (hue_shift_six (mk_ndarray 1 2 [3] [170; 20; 30; 5; 50; 60]) 3 eq_refl).
  intros i x Hx Hi. cbn [data] in Hx.
  destruct i as [|[|[|[|[|[|i]]]]]]; simplify_eq/=; try lia; discriminate.
Defined.

(** ** Dropping a file, and events that leave the images alone *)

(** A dropped file that can be displayed is loaded exactly as a file
    chosen in the dialog; a drop without files, like a cancelled dialog,
    does nothing. *)
Theorem dropEvent_is_open_image (cv2 : Cv2) (s : ImageProcessingApp)
    (file_name : string) (files : list string) (img shown : ndarray) :
  file_name ≠ "" →
  display_array cv2 img = Ok shown →
  dropEvent cv2 (file_name :: files) (Some img) s
    = open_image cv2 file_name (Some img) s ∧
  exec (dropEvent cv2 (file_name :: files) None) s =
    set_dialogs (set_original_image s None)
      (dialogs s ++ [Critical "Error" "Failed to load dropped image: Failed to load image"]) ∧
  dropEvent cv2 [] (Some img) s = (Ok tt, s) ∧
  open_image cv2 "" (Some img) s = (Ok tt, s).
Proof.
  intros Hf Hd. split; [| split; [| split]].
  - rewrite (open_image_eq cv2 s file_name img shown Hf Hd).
    unfold dropEvent, try_except. by rewrite (load_image_eq cv2 s img shown Hd).
  - destruct s. reflexivity.
  - reflexivity.
  - reflexivity.
Qed.

Lemma dropEvent_is_open_image_witness :
  exec (dropEvent echo_cv2 ["photo.png"; "other.png"] (Some sample_image))
    (init (1200, 900))
    = opened_state.
Proof.
  unfold opened_state, exec.
  by rewrite (proj1 (dropEvent_is_open_image echo_cv2 (init (1200, 900)) "photo.png"
                       ["other.png"] sample_image sample_image
                       ltac:(discriminate) eq_refl)).
Defined.

(** Saving, resizing the window, starting or stopping the camera and
    pressing the mouse button never touch an array, the original, the
    processed image or the history. *)
Theorem passive_events_keep_images (cv2 : Cv2) (e : event) (s : ImageProcessingApp) :
  is_passive e = true →
  let s' := exec (handle cv2 e) s in
  heap s' = heap s ∧
  original_image s' = original_image s ∧
  processed_image s' = processed_image s ∧
  image_history s' = image_history s ∧
  current_history_index s' = current_history_index s.
Proof.
  intros He. destruct e; try discriminate He; clear He; cbn [handle];
    destruct s; unfold_methods; step_monad;
    repeat (inner_case; step_monad); done.
Qed.

Lemma passive_events_keep_images_witness :
  is_passive (EvSave "out.png" false) = true ∧
  heap (exec (handle echo_cv2 (EvSave "out.png" false)) opened_state)
    = heap opened_state ∧
  dialogs (exec (handle echo_cv2 (EvSave "out.png" false)) opened_state)
    = [Critical "Error" "Failed to save image: Failed to save image"].
Proof.
  split; [reflexivity |]. split; [| vm_compute; reflexivity].
  exact (proj1 (passive_events_keep_images echo_cv2 (EvSave "out.png" false)
                  opened_state eq_refl)).
Defined.
